(** * LLM-Python: prompt splitting, backend prompt composition and the Api dispatcher

    A shallow embedding of [models/ModelBase.py], the four backends under
    [models/impl/] and [Api.py].

    Python values are modelled as follows.
    - A [str] is a [string]; one character of the model stands for one code
      point of the Python string, in the range 0..255.
    - A raised exception is a value of [exn]; a Python expression that may
      raise evaluates to a [result].
    - The dictionaries [Api.models] and [Api.locks] are [gmap]s keyed by the
      model name.
    - A [threading.Semaphore] is its counter.
    - What torch and transformers do (loading weights, generating text) is
      not part of the repository: their outcome is an input of the model. *)

From stdpp Require Import base option list strings gmap fin_maps relations.
From Stdlib Require Import Ascii NArith Lia.

Local Open Scope string_scope.
Local Open Scope nat_scope.

(** ** Exceptions and results *)

Inductive exn : Type :=
| KeyError (key : string)            (* [d[key]] on a dictionary without [key] *)
| ValueError (expected got : nat)    (* unpacking [got] values into [expected] names *)
| TypeError (msg : string)           (* a call whose arguments do not bind *)
| Exception (msg : string)           (* [raise Exception(msg)] in the repository's code *)
| ExternalError (msg : string)       (* any other [Exception] raised by torch / transformers *)
| StopIteration                      (* an [Exception] that a future refuses to hold *)
| InvalidStateError                  (* [set_result] / [set_exception] on a future that is not pending *)
| KeyboardInterrupt                  (* the last three are outside [Exception] *)
| SystemExit
| CancelledError.

#[global] Instance exn_eq_dec : EqDecision exn.
Proof. solve_decision. Defined.

(** [isinstance(e, Exception)]: what [except Exception] catches. *)
Definition is_Exception (e : exn) : bool :=
  match e with
  | KeyboardInterrupt | SystemExit | CancelledError => false
  | _ => true
  end.

Inductive result (A : Type) : Type :=
| Ok (a : A)
| Raise (e : exn).
Arguments Ok {A} a.
Arguments Raise {A} e.

#[global] Instance result_ret : MRet result := @Ok.
#[global] Instance result_bind : MBind result := λ A B k r,
  match r with
  | Ok a => k a
  | Raise e => Raise e
  end.

(** ** The string primitives the code uses *)

Definition nl : string := String (ascii_of_nat 10) "".

(** [str.isspace] on one code point (0..255): TAB, LF, VT, FF, CR, the four
    separators FS, GS, RS, US, the space, NEL and the no-break space. *)
Definition isspace (c : ascii) : bool :=
  let n := N_of_ascii c in
  ((9 <=? n) && (n <=? 13) || (28 <=? n) && (n <=? 32) || (n =? 133) || (n =? 160))%N.

Fixpoint lstrip (s : string) : string :=
  match s with
  | "" => ""
  | String c s' => if isspace c then lstrip s' else s
  end.

Fixpoint rstrip (s : string) : string :=
  match s with
  | "" => ""
  | String c s' =>
      match rstrip s' with
      | "" => if isspace c then "" else String c ""
      | r => String c r
      end
  end.

(** [s.strip()] *)
Definition strip (s : string) : string := rstrip (lstrip s).

(** [strip_prefix p s] is [Some r] when [s = p +:+ r]. *)
Fixpoint strip_prefix (p s : string) : option string :=
  match p, s with
  | "", _ => Some s
  | String a p', String b s' => if Ascii.eqb a b then strip_prefix p' s' else None
  | String _ _, "" => None
  end.

(** The leftmost match of a literal pattern: the text before it and the text
    after it. *)
Fixpoint search (p s : string) : option (string * string) :=
  match strip_prefix p s with
  | Some rest => Some ("", rest)
  | None =>
      match s with
      | "" => None
      | String c s' =>
          match search p s' with
          | Some (b, a) => Some (String c b, a)
          | None => None
          end
      end
  end.

(** [re.split(pattern, string)] for a pattern that is a non-empty literal:
    cut at the leftmost match and go on after it.  Every match consumes at
    least one character, so [String.length s] rounds are enough
    ([re_split_unfold] below). *)
Fixpoint re_split_from (rounds : nat) (p s : string) : list string :=
  match rounds with
  | O => [s]
  | S n =>
      match search p s with
      | None => [s]
      | Some (b, a) => b :: re_split_from n p a
      end
  end.

Definition re_split (p s : string) : list string :=
  re_split_from (String.length s) p s.

(** [a, b = l] *)
Definition unpack2 (l : list string) : result (string * string) :=
  match l with
  | [a; b] => Ok (a, b)
  | _ => Raise (ValueError 2 (length l))
  end.

(** The number of positions of [s] at which [p] occurs. *)
Fixpoint occurrences (p s : string) : nat :=
  (if strip_prefix p s is Some _ then 1 else 0) +
  match s with
  | "" => 0
  | String _ s' => occurrences p s'
  end.

(** ** models/ModelBase.py *)

Module ModelBase.

Record SplitPrompt : Type := mkSplitPrompt {
  Instructions : string;
  Rules : string;
  Summary : string;
  AffectedFiles : string;
  Result : string
}.

(** The four patterns of [split_prompt].  None of their characters is
    special in a regular expression except the escape [\n], a line feed. *)
Definition pat_rules : string := Eval cbv in "Rules" +:+ nl +:+ "=====".
Definition pat_summary : string :=
  Eval cbv in "The Summary of the Commit" +:+ nl +:+ "=========================".
Definition pat_affected : string :=
  Eval cbv in "The Commit's affected files" +:+ nl +:+ "===========================".
Definition pat_result : string := Eval cbv in "Result" +:+ nl +:+ "======".

Definition split_prompt (prompt : string) : result SplitPrompt :=
  '(instructions, rules_and_more) ← unpack2 (re_split pat_rules prompt);
  '(rules, summary_and_more) ← unpack2 (re_split pat_summary rules_and_more);
  '(summary, affected_and_more) ← unpack2 (re_split pat_affected summary_and_more);
  '(affected, result) ← unpack2 (re_split pat_result affected_and_more);
  Ok {| Instructions := strip instructions; Rules := strip rules;
        Summary := strip summary; AffectedFiles := strip affected;
        Result := strip result |}.

End ModelBase.

(** ** models/impl: the four backends *)

(** What a backend hands to the pretrained model: a text, or a chat, a list
    of (role, content) messages. *)
Inductive model_input : Type :=
| Text (use_prompt : string)
| Chat (messages : list (string * string)).

Definition summary_and_files (sp : ModelBase.SplitPrompt) : string :=
  "The Summary of the Commit" +:+ nl +:+ "=========================" +:+ nl +:+ nl +:+
  ModelBase.Summary sp +:+ nl +:+ nl +:+
  "The Commit's affected files" +:+ nl +:+ "===========================" +:+ nl +:+ nl +:+
  ModelBase.AffectedFiles sp.

Definition question_can : string :=
  "Report the percentage to which the given commit can be assigned to each maintenance activity in percent.".
Definition question_should : string :=
  "Report the percentage to which the given commit should be assigned to each maintenance activity in percent.".

(** The one template shared, character for character, by
    [Gemma_7B_Instruct.prompt] and [LLama2_xB_Chat.prompt]. *)
Definition full_document (sp : ModelBase.SplitPrompt) : string :=
  ModelBase.Instructions sp +:+ nl +:+ nl +:+ "Rules" +:+ nl +:+ "=====" +:+
  ModelBase.Rules sp +:+ nl +:+ nl +:+ summary_and_files sp +:+ nl +:+ nl +:+
  "Result" +:+ nl +:+ "======" +:+ question_should.

(** [s.replace(old, '')] for a non-empty [old]: the occurrences removed are
    the cuts of a literal split. *)
Definition replace_by_empty (old s : string) : string :=
  String.concat "" (re_split old s).

Module Mistral8x7BInstructV01.
Definition compose (sp : ModelBase.SplitPrompt) (include_rules : bool) : model_input :=
  let assistant := "" in
  let assistant :=
    if include_rules
    then assistant +:+ "Rules" +:+ nl +:+ "=====" +:+ nl +:+ nl +:+ ModelBase.Rules sp +:+ nl +:+ nl
    else assistant in
  let assistant := assistant +:+ summary_and_files sp in
  Chat [("user", ModelBase.Instructions sp); ("assistant", assistant); ("user", question_can)].

Definition prompt (generate : model_input → result string)
    (prompt : string) (include_rules : bool) : result string :=
  sp ← ModelBase.split_prompt prompt;
  generate (compose sp include_rules).
End Mistral8x7BInstructV01.

Module LLama2_xB_Chat.
Definition compose (sp : ModelBase.SplitPrompt) : model_input := Text (full_document sp).

Definition prompt (generate : model_input → result string)
    (prompt : string) (include_rules : bool) : result string :=
  if negb include_rules
  then Raise (Exception "This model does not work correctly without rules.")
  else
    sp ← ModelBase.split_prompt prompt;
    generated_text ← generate (compose sp);
    Ok (strip (replace_by_empty (full_document sp) generated_text)).
End LLama2_xB_Chat.

Module CodeLLama_xB_Instruct.
Definition compose (sp : ModelBase.SplitPrompt) (include_rules : bool) : model_input :=
  let system := ModelBase.Instructions sp in
  let system :=
    if include_rules
    then system +:+ nl +:+ nl +:+ "Rules" +:+ nl +:+ "=====" +:+ nl +:+ nl +:+
         ModelBase.Rules sp +:+ nl +:+ nl
    else system in
  let system := system +:+ summary_and_files sp in
  Chat [("system", system); ("user", question_can)].

Definition prompt (generate : model_input → result string)
    (prompt : string) (include_rules : bool) : result string :=
  sp ← ModelBase.split_prompt prompt;
  generate (compose sp include_rules).
End CodeLLama_xB_Instruct.

Module Gemma_7B_Instruct.
(** [include_rules] is a parameter of [prompt] that its body never reads. *)
Definition compose (sp : ModelBase.SplitPrompt) (include_rules : bool) : model_input :=
  Text (full_document sp).

Definition prompt (generate : model_input → result string)
    (prompt : string) (include_rules : bool) : result string :=
  sp ← ModelBase.split_prompt prompt;
  generate (compose sp include_rules).
End Gemma_7B_Instruct.

Inductive model_class : Type := Mistral | LLama2 | CodeLLama | Gemma.

(** [cls.__name__] *)
Definition class_name (c : model_class) : string :=
  match c with
  | Mistral => "Mistral8x7BInstructV01"
  | LLama2 => "LLama2_xB_Chat"
  | CodeLLama => "CodeLLama_xB_Instruct"
  | Gemma => "Gemma_7B_Instruct"
  end.

(** A constructed backend object; tokenizer, weights and pipeline live in
    the external libraries. *)
Record Backend : Type := mkBackend {
  cls : model_class;
  b_dev : string;
  size : option string
}.

(** How [cls(dev=dev, **kwargs)] binds its arguments: [dev] may not be given
    twice, no keyword other than the signature's is accepted, and the
    size-parameterised families require [size]. *)
Definition bind_args (c : model_class) (kwargs : gmap string string) : result (option string) :=
  if bool_decide (is_Some (kwargs !! "dev"))
  then Raise (TypeError "got multiple values for keyword argument 'dev'")
  else
    match c with
    | Mistral | Gemma =>
        if bool_decide (kwargs = ∅) then Ok None
        else Raise (TypeError "got an unexpected keyword argument")
    | LLama2 | CodeLLama =>
        if bool_decide (delete "size" kwargs = ∅)
        then match kwargs !! "size" with
             | Some sz => Ok (Some sz)
             | None => Raise (TypeError "missing 1 required positional argument: 'size'")
             end
        else Raise (TypeError "got an unexpected keyword argument")
    end.

(** The constructor call: bind the arguments, then run [__init__], whose
    only fallible part is the external loading, of outcome [load]. *)
Definition construct (load : result ()) (c : model_class) (dev : string)
    (kwargs : gmap string string) : result Backend :=
  sz ← bind_args c kwargs;
  _ ← load;
  Ok {| cls := c; b_dev := dev; size := sz |}.

(** [instance.prompt(prompt, include_rules)], dispatched on the class. *)
Definition instance_prompt (generate : model_input → result string) (instance : Backend)
    (prompt : string) (include_rules : bool) : result string :=
  match cls instance with
  | Mistral => Mistral8x7BInstructV01.prompt generate prompt include_rules
  | LLama2 => LLama2_xB_Chat.prompt generate prompt include_rules
  | CodeLLama => CodeLLama_xB_Instruct.prompt generate prompt include_rules
  | Gemma => Gemma_7B_Instruct.prompt generate prompt include_rules
  end.

(** ** Api.py *)

(** What the instrumented dispatcher records: semaphore operations, calls of
    a class constructor (line 29), assignments to [self.models], and the
    exceptions that leave a task's [try] statement unhandled. *)
Inductive event : Type :=
| EvAcquire (model : string)
| EvRelease (model : string)
| EvConstruct (model : string)
| EvStore (model : string)
| EvUncaught (e : exn).

#[global] Instance event_eq_dec : EqDecision event.
Proof. solve_decision. Defined.

Module Api.

Record t : Type := mk {
  dev : string;
  models : gmap string Backend;
  locks : gmap string nat
}.

Definition available_models : list string :=
  [class_name Mistral; class_name LLama2; class_name CodeLLama].

(** [Api.__init__]: one [Semaphore(value=1)] per available model. *)
Definition init (use_device : string) : t :=
  {| dev := use_device;
     models := ∅;
     locks := list_to_map ((λ m, (m, 1)) <$> available_models) |}.

(** [globals()[model]] in Api.py, where the three classes are imported. *)
Definition globals (model : string) : result model_class :=
  if String.eqb model (class_name Mistral) then Ok Mistral
  else if String.eqb model (class_name LLama2) then Ok LLama2
  else if String.eqb model (class_name CodeLLama) then Ok CodeLLama
  else Raise (KeyError model).

Definition dq : string := String (ascii_of_nat 34) "".
Definition not_known (model : string) : exn :=
  Exception ("The model " +:+ dq +:+ model +:+ dq +:+ " is not known.").

(** Line 29, the right-hand side. *)
Definition instantiate (load : result ()) (self : t) (model : string)
    (kwargs : gmap string string) : result Backend :=
  c ← globals model;
  construct load c (dev self) kwargs.

(** [_get_model]: the object after the call, what the call did, and what
    it returned or raised. *)
Definition _get_model (load : result ()) (self : t) (model : string)
    (kwargs : gmap string string) : t * list event * result Backend :=
  if bool_decide (model ∈ available_models) then
    match models self !! model with
    | Some instance => (self, [], Ok instance)
    | None =>
        match instantiate load self model kwargs with
        | Ok instance =>
            ({| dev := dev self; models := <[model := instance]> (models self);
                locks := locks self |},
             [EvConstruct model; EvStore model], Ok instance)
        | Raise e => (self, [EvConstruct model], Raise e)
        end
    end
  else (self, [], Raise (not_known model)).

End Api.

(** An [asyncio.Future]. *)
Inductive future : Type :=
| Pending
| Done (outcome : result string).

(** Where a scheduled [prompt_model] coroutine stands.  The constructor call
    and the backend's [prompt] are calls into the external libraries, so a
    task can be observed inside them. *)
Inductive pc : Type :=
| AtAcquire                       (* line 40 is next; [got_lock = False] *)
| AtGetModel                      (* the semaphore is held; line 41 is next *)
| InConstructor                   (* inside line 29's constructor call *)
| InPrompt (instance : Backend)   (* inside [instance.prompt] of line 42 *)
| AtFinally (got_lock : bool)     (* lines 42-44 are done; lines 45-47 are next *)
| Finished.

Record Task : Type := mkTask {
  t_model : string;
  t_prompt : string;
  t_future : nat;
  t_pc : pc
}.

(** The external libraries' answers to one task. *)
Record outcome : Type := mkOutcome {
  load : result ();
  generate : model_input → result string
}.

(** One Api object, the futures it has returned, the tasks it has created
    on the event loop, and the record of what happened. *)
Record Loop : Type := mkLoop {
  api : Api.t;
  futures : list future;
  tasks : list Task;
  log : list event
}.

Definition initial (use_device : string) : Loop :=
  {| api := Api.init use_device; futures := []; tasks := []; log := [] |}.

(** [Api.prompt_model]: a new future, a new task, and the future returned.
    Nothing of the task's body runs here. *)
Definition prompt_model (l : Loop) (model prompt : string) : result (Loop * nat) :=
  let future := length (futures l) in
  Ok ({| api := api l;
         futures := futures l ++ [Pending];
         tasks := tasks l ++ [{| t_model := model; t_prompt := prompt;
                                 t_future := future; t_pc := AtAcquire |}];
         log := log l |}, future).

(** [future.set_result] / [future.set_exception], with what the call
    raises.  A future that is not pending raises InvalidStateError, and a
    pending one refuses a StopIteration with a TypeError; the future is left
    as it is in both cases. *)
Definition set_future (f : nat) (r : result string) (fs : list future)
    : list future * option exn :=
  match fs !! f with
  | Some Pending =>
      match r with
      | Raise StopIteration =>
          (fs, Some (TypeError "StopIteration interacts badly with generators and cannot be raised into a Future"))
      | _ => (<[f := Done r]> fs, None)
      end
  | _ => (fs, Some InvalidStateError)
  end.

(** Lines 42 to 44, given what lines 40 to 42 have returned or raised up to
    the call of [set_result]: the futures afterwards, and the exception that
    leaves the [try] statement, if any.  An exception of [set_result] is
    raised inside the [try] block, so the [except] clause gets it; an
    exception outside [Exception] is not caught; an exception of
    [set_exception] is raised inside the [except] clause and leaves it. *)
Definition settle (f : nat) (r : result string) (fs : list future)
    : list future * option exn :=
  match r with
  | Ok _ =>
      match set_future f r fs with
      | (fs', None) => (fs', None)
      | (_, Some e) => set_future f (Raise e) fs
      end
  | Raise e => if is_Exception e then set_future f r fs else (fs, Some e)
  end.

#[global] Arguments settle : simpl never.

Definition uncaught (escaped : option exn) : list event :=
  match escaped with
  | Some e => [EvUncaught e]
  | None => []
  end.

Definition with_pc (t : Task) (p : pc) : Task :=
  {| t_model := t_model t; t_prompt := t_prompt t; t_future := t_future t; t_pc := p |}.

(** Lines 42 to 44: settle the task's future and go to the [finally]
    block, which runs whatever was raised. *)
Definition resolve (l : Loop) (i : nat) (t : Task) (r : result string) (got_lock : bool) : Loop :=
  {| api := api l;
     futures := (settle (t_future t) r (futures l)).1;
     tasks := <[i := with_pc t (AtFinally got_lock)]> (tasks l);
     log := log l ++ uncaught (settle (t_future t) r (futures l)).2 |}.

Definition move (l : Loop) (i : nat) (t : Task) (p : pc) (a : Api.t) (evs : list event) : Loop :=
  {| api := a; futures := futures l;
     tasks := <[i := with_pc t p]> (tasks l);
     log := log l ++ evs |}.

(** One step of task [i]; [None] when the task cannot move (it waits for
    the semaphore, or it does not exist or has finished). *)
Definition task_step (o : outcome) (l : Loop) (i : nat) : option Loop :=
  t ← tasks l !! i;
  let self := api l in
  let model := t_model t in
  match t_pc t with
  | AtAcquire =>
      match Api.locks self !! model with
      | None => Some (resolve l i t (Raise (KeyError model)) false)
      | Some O => None
      | Some (S v) =>
          Some (move l i t AtGetModel
                  {| Api.dev := Api.dev self; Api.models := Api.models self;
                     Api.locks := <[model := v]> (Api.locks self) |}
                  [EvAcquire model])
      end
  | AtGetModel =>
      if bool_decide (model ∈ Api.available_models) then
        match Api.models self !! model with
        | Some instance => Some (move l i t (InPrompt instance) self [])
        | None => Some (move l i t InConstructor self [EvConstruct model])
        end
      else Some (resolve l i t (Raise (Api.not_known model)) true)
  | InConstructor =>
      match Api.instantiate (load o) self model ∅ with
      | Ok instance =>
          Some (move l i t (InPrompt instance)
                  {| Api.dev := Api.dev self;
                     Api.models := <[model := instance]> (Api.models self);
                     Api.locks := Api.locks self |}
                  [EvStore model])
      | Raise e => Some (resolve l i t (Raise e) true)
      end
  | InPrompt instance =>
      Some (resolve l i t (instance_prompt (generate o) instance (t_prompt t) true) true)
  | AtFinally true =>
      Some (move l i t Finished
              {| Api.dev := Api.dev self; Api.models := Api.models self;
                 Api.locks := alter S model (Api.locks self) |}
              [EvRelease model])
  | AtFinally false => Some (move l i t Finished self [])
  | Finished => None
  end.

(** A coroutine without [await] runs from its first line to its last once
    the event loop starts it: task [i] is stepped until it has finished.
    [None]: it waits for the semaphore, which stops the loop's only thread. *)
Fixpoint run_task_from (n : nat) (o : outcome) (l : Loop) (i : nat) : option Loop :=
  t ← tasks l !! i;
  match t_pc t with
  | Finished => Some l
  | _ =>
      match n with
      | O => None
      | S n' => l' ← task_step o l i; run_task_from n' o l' i
      end
  end.

Definition run_task : outcome → Loop → nat → option Loop := run_task_from 5.

(** The transitions of the system, in any interleaving: a submission, or one
    step of one task with some answer of the external libraries. *)
Inductive step : Loop → Loop → Prop :=
| step_submit l model prompt l' f :
    prompt_model l model prompt = Ok (l', f) → step l l'
| step_task l i o l' :
    task_step o l i = Some l' → step l l'.

Definition reachable (l : Loop) : Prop := ∃ use_device, rtc step (initial use_device) l.

(** A schedule, to run the system on concrete inputs. *)
Inductive action : Type :=
| Submit (model prompt : string)
| Advance (i : nat) (o : outcome)
| Run (i : nat) (o : outcome).

Fixpoint run_schedule (acts : list action) (l : Loop) : option Loop :=
  match acts with
  | [] => Some l
  | Submit model prompt :: acts' =>
      match prompt_model l model prompt with
      | Ok (l', _) => run_schedule acts' l'
      | Raise _ => None
      end
  | Advance i o :: acts' => l' ← task_step o l i; run_schedule acts' l'
  | Run i o :: acts' => l' ← run_task o l i; run_schedule acts' l'
  end.

(** Task [t] holds its model's semaphore. *)
Definition holds (t : Task) : bool :=
  match t_pc t with
  | AtGetModel | InConstructor | InPrompt _ | AtFinally true => true
  | AtAcquire | AtFinally false | Finished => false
  end.

Definition in_prompt (t : Task) : bool :=
  match t_pc t with InPrompt _ => true | _ => false end.

(** Between two task runs of the event loop every task is either not yet
    started or finished. *)
Definition quiescent (l : Loop) : Prop :=
  ∀ i t, tasks l !! i = Some t → t_pc t = AtAcquire ∨ t_pc t = Finished.

Definition count_event (e : event) (evs : list event) : nat :=
  length (filter (λ e', e' = e) evs).


(** ** Vocabulary of the statements *)

(** The text before and after the leftmost occurrence of [p] in [s]. *)
Definition before (p s : string) : string :=
  match search p s with Some (b, _) => b | None => s end.
Definition after (p s : string) : string :=
  match search p s with Some (_, a) => a | None => "" end.

Fixpoint mem_char (c : ascii) (s : string) : bool :=
  match s with
  | "" => false
  | String d s' => Ascii.eqb c d || mem_char c s'
  end.

(** The first character of [p] occurs nowhere else in [p]: two occurrences
    of such a pattern cannot overlap. *)
Definition head_fresh (p : string) : bool :=
  match p with
  | "" => false
  | String c p' => negb (mem_char c p')
  end.

Definition starts_with_space (s : string) : bool :=
  match s with
  | "" => false
  | String c _ => isspace c
  end.

Fixpoint ends_with_space (s : string) : bool :=
  match s with
  | "" => false
  | String c "" => isspace c
  | String _ s' => ends_with_space s'
  end.

Definition trimmed (s : string) : bool :=
  negb (starts_with_space s) && negb (ends_with_space s).

Fixpoint all_space (s : string) : bool :=
  match s with
  | "" => true
  | String c s' => isspace c && all_space s'
  end.

(** Each of the four section markers occurs exactly once. *)
Definition well_formed (prompt : string) : bool :=
  Nat.eqb (occurrences ModelBase.pat_rules prompt) 1 &&
  Nat.eqb (occurrences ModelBase.pat_summary prompt) 1 &&
  Nat.eqb (occurrences ModelBase.pat_affected prompt) 1 &&
  Nat.eqb (occurrences ModelBase.pat_result prompt) 1.

Definition markers : list string :=
  [ModelBase.pat_rules; ModelBase.pat_summary; ModelBase.pat_affected; ModelBase.pat_result].

(** The length of the run of [c] at the start of [s]. *)
Fixpoint run_length (c : ascii) (s : string) : nat :=
  match s with
  | "" => 0
  | String d s' => if Ascii.eqb c d then S (run_length c s') else 0
  end.

(** A document with the five sections in order. *)
Definition document (i r s a x : string) : string :=
  i +:+ ModelBase.pat_rules +:+ r +:+ ModelBase.pat_summary +:+ s +:+
  ModelBase.pat_affected +:+ a +:+ ModelBase.pat_result +:+ x.

(** Each marker with the text that [split_prompt] splits on it: the whole
    prompt for the first, the text after the preceding marker for the others. *)
Definition scopes (prompt : string) : list (string * string) :=
  let r1 := after ModelBase.pat_rules prompt in
  let r2 := after ModelBase.pat_summary r1 in
  let r3 := after ModelBase.pat_affected r2 in
  [(ModelBase.pat_rules, prompt); (ModelBase.pat_summary, r1);
   (ModelBase.pat_affected, r2); (ModelBase.pat_result, r3)].

(** The prompts of the examples. *)
Definition prompt_summary_twice : string :=
  ModelBase.pat_summary +:+ document " i " " r " " s " " a " " x ".
Definition prompt_bare_markers : string := document "" "" "" "" "".
Definition prompt_result_first : string :=
  "i" +:+ ModelBase.pat_result +:+ "x" +:+ ModelBase.pat_rules +:+ "r" +:+
  ModelBase.pat_summary +:+ "s" +:+ ModelBase.pat_affected +:+ "a".
Definition prompt_long_underline : string :=
  document ("i" +:+ nl) ("=" +:+ nl +:+ "r" +:+ nl) (nl +:+ "s" +:+ nl)
           (nl +:+ "a" +:+ nl) (nl +:+ "x").

Definition prompt_with_rules : string :=
  document "Classify." " No force pushes. " " s " " a " " x ".

(** A task that has not yet reached [set_result] or the [except] clause:
    nothing has touched its future. *)
Definition unresolved (t : Task) : bool :=
  match t_pc t with
  | AtAcquire | AtGetModel | InConstructor | InPrompt _ => true
  | AtFinally _ | Finished => false
  end.

(** Task [j] is a task for model [m] and holds that model's semaphore. *)
Definition holder (l : Loop) (j : nat) (m : string) : Prop :=
  ∃ t, tasks l !! j = Some t ∧ t_model t = m ∧ holds t = true.

(** Lines 40 to 42, the [try] block up to the call of [set_result], as one
    expression: the value the coroutine hands to [set_result], or the
    exception raised before, when it runs on the object [self]. *)
Definition task_result (o : outcome) (self : Api.t) (model prompt : string) : result string :=
  match Api.locks self !! model with
  | None => Raise (KeyError model)
  | Some _ =>
      match Api._get_model (load o) self model ∅ with
      | (_, _, Ok instance) => instance_prompt (generate o) instance prompt true
      | (_, _, Raise e) => Raise e
      end
  end.

(** The invariants of the dispatcher. *)
Record futures_inv (l : Loop) : Prop := mkFuturesInv {
  fi_length : length (futures l) = length (tasks l);
  fi_id : ∀ i t, tasks l !! i = Some t → t_future t = i;
  fi_state : ∀ i t, tasks l !! i = Some t → unresolved t = true →
    futures l !! i = Some Pending
}.

Record locks_inv (l : Loop) : Prop := mkLocksInv {
  li_dom : ∀ m, is_Some (Api.locks (api l) !! m) ↔ m ∈ Api.available_models;
  li_value : ∀ m v, Api.locks (api l) !! m = Some v →
    (v = 1 ∧ ∀ j, ¬ holder l j m) ∨ (v = 0 ∧ ∃ j, holder l j m);
  li_unique : ∀ i j m, holder l i m → holder l j m → i = j;
  li_known : ∀ j m, holder l j m → m ∈ Api.available_models
}.

Record models_inv (l : Loop) : Prop := mkModelsInv {
  mi_constructing : ∀ i t, tasks l !! i = Some t → t_pc t = InConstructor →
    Api.models (api l) !! t_model t = None;
  mi_stored : ∀ m, count_event (EvStore m) (log l) =
    if Api.models (api l) !! m is Some _ then 1 else 0;
  mi_class : ∀ m instance, Api.models (api l) !! m = Some instance →
    m = class_name Mistral ∧ cls instance = Mistral
}.

Definition inv (l : Loop) : Prop := futures_inv l ∧ locks_inv l ∧ models_inv l.

(** The schedules of the examples. *)
Definition ok_outcome : outcome :=
  {| load := Ok (); generate := λ _, Ok "adaptive: 100%" |}.

(** A pretrained model whose generation raises StopIteration, and one
    whose generation is interrupted from the keyboard. *)
Definition stop_outcome : outcome :=
  {| load := Ok (); generate := λ _, Raise StopIteration |}.

Definition interrupt_outcome : outcome :=
  {| load := Ok (); generate := λ _, Raise KeyboardInterrupt |}.

Definition state_after (acts : list action) : Loop :=
  default (initial "cuda") (run_schedule acts (initial "cuda")).

Definition llama_twice : list action :=
  [Submit "LLama2_xB_Chat" prompt_with_rules; Submit "LLama2_xB_Chat" prompt_with_rules;
   Run 0 ok_outcome; Run 1 ok_outcome].

Definition mistral_in_prompt : list action :=
  [Submit "Mistral8x7BInstructV01" prompt_with_rules;
   Submit "Mistral8x7BInstructV01" prompt_with_rules;
   Advance 0 ok_outcome; Advance 0 ok_outcome; Advance 0 ok_outcome].

Definition mistral_done : list action :=
  [Submit "Mistral8x7BInstructV01" prompt_with_rules; Run 0 ok_outcome].

Definition mistral_again : list action :=
  [Submit "Mistral8x7BInstructV01" prompt_with_rules; Run 1 ok_outcome].

(** An exception that a future can hold: an [Exception] other than
    StopIteration. *)
Definition storable (e : exn) : bool :=
  match e with
  | StopIteration => false
  | _ => is_Exception e
  end.

(** What a pending future becomes when its task's [try] block has returned
    or raised [r], and the exception that leaves the [try] statement. *)
Definition stored (r : result string) : future :=
  match r with
  | Ok _ => Done r
  | Raise e => if storable e then Done r else Pending
  end.

Definition escaping (r : result string) : option exn :=
  match r with
  | Ok _ => None
  | Raise StopIteration =>
      Some (TypeError "StopIteration interacts badly with generators and cannot be raised into a Future")
  | Raise e => if is_Exception e then None else Some e
  end.

(** KeyboardInterrupt and SystemExit, when they leave a task, are raised
    again by the event loop, which stops. *)
Definition stops_loop (r : result string) : bool :=
  match r with
  | Raise KeyboardInterrupt | Raise SystemExit => true
  | _ => false
  end.

(** External libraries that raise nothing but exceptions a future can
    hold. *)
Definition well_behaved (o : outcome) : Prop :=
  (∀ e, load o = Raise e → storable e = true) ∧
  (∀ input e, generate o input = Raise e → storable e = true).

(** The event loop works through its queue: the tasks are run, each from
    its first line to its last, in the order given; [os i] is what the
    external libraries answer to task [i].  The loop stops after a task that
    ends with KeyboardInterrupt or SystemExit, and the tasks behind it are
    not run. *)
Fixpoint run_tasks (os : nat → outcome) (order : list nat) (l : Loop) : option Loop :=
  match order with
  | [] => Some l
  | i :: order' =>
      t ← tasks l !! i;
      l' ← run_task (os i) l i;
      if unresolved t && stops_loop (task_result (os i) (api l) (t_model t) (t_prompt t))
      then Some l'
      else run_tasks os order' l'
  end.

(** The tasks are started in the order of their creation. *)
Definition run_loop (os : nat → outcome) (l : Loop) : option Loop :=
  run_tasks os (seq 0 (length (tasks l))) l.

(** A prompt with the same first four sections and another Result section. *)
Definition with_result (sp : ModelBase.SplitPrompt) (result : string) : ModelBase.SplitPrompt :=
  {| ModelBase.Instructions := ModelBase.Instructions sp;
     ModelBase.Rules := ModelBase.Rules sp;
     ModelBase.Summary := ModelBase.Summary sp;
     ModelBase.AffectedFiles := ModelBase.AffectedFiles sp;
     ModelBase.Result := result |}.

(** A prompt with the same sections but for the Rules. *)
Definition with_rules (sp : ModelBase.SplitPrompt) (rules : string) : ModelBase.SplitPrompt :=
  {| ModelBase.Instructions := ModelBase.Instructions sp;
     ModelBase.Rules := rules;
     ModelBase.Summary := ModelBase.Summary sp;
     ModelBase.AffectedFiles := ModelBase.AffectedFiles sp;
     ModelBase.Result := ModelBase.Result sp |}.

Definition sample_sections : ModelBase.SplitPrompt :=
  {| ModelBase.Instructions := "Classify."; ModelBase.Rules := "No force pushes.";
     ModelBase.Summary := "s"; ModelBase.AffectedFiles := "a"; ModelBase.Result := "x" |}.

Definition echo_outcome : outcome :=
  {| load := Ok ();
     generate := λ input,
       match input with
       | Text use_prompt => Ok (use_prompt +:+ " adaptive: 100% ")
       | Chat _ => Ok "adaptive: 100%"
       end |}.

(** Acquisitions and releases recorded for [m] match the counter of its
    semaphore. *)
Definition balanced (l : Loop) : Prop :=
  ∀ m, count_event (EvAcquire m) (log l) + default 1 (Api.locks (api l) !! m) =
       count_event (EvRelease m) (log l) + 1.

Definition three_submissions : list action :=
  [Submit "Mistral8x7BInstructV01" prompt_with_rules;
   Submit "NotAModel" prompt_with_rules;
   Submit "LLama2_xB_Chat" prompt_with_rules].

(** * Facts about the string primitives *)

Lemma app_cons_s (c : ascii) (a b : string) : String c a +:+ b = String c (a +:+ b).
Proof. reflexivity. Qed.

Lemma app_nil_s (b : string) : "" +:+ b = b.
Proof. reflexivity. Qed.

Lemma app_assoc_s (a b c : string) : (a +:+ b) +:+ c = a +:+ b +:+ c.
Proof. induction a as [|ch a IH]; [done | by rewrite !app_cons_s, IH]. Qed.

Lemma length_app_s (a b : string) :
  String.length (a +:+ b) = String.length a + String.length b.
Proof. induction a as [|ch a IH]; [done | rewrite app_cons_s; simpl; by rewrite IH]. Qed.

Lemma strip_prefix_Some p s r : strip_prefix p s = Some r ↔ s = p +:+ r.
Proof.
  revert s. induction p as [|a p IH]; intros s; simpl.
  - split; [by intros [= ->] | by intros ->].
  - destruct s as [|b s]; [split; discriminate |].
    destruct (Ascii.eqb_spec a b) as [-> | Hne].
    + rewrite IH. split; [by intros -> | by intros [= ->]].
    + split; [discriminate | intros [= ? ?]; congruence].
Qed.

Lemma strip_prefix_app p r : strip_prefix p (p +:+ r) = Some r.
Proof. by apply strip_prefix_Some. Qed.

Lemma search_Some p s b a : search p s = Some (b, a) → s = b +:+ p +:+ a.
Proof.
  revert b. induction s as [|c s IH]; intros b; simpl.
  - destruct (strip_prefix p "") as [r|] eqn:E; [|discriminate].
    intros [= <- <-]. by apply strip_prefix_Some in E.
  - destruct (strip_prefix p (String c s)) as [r|] eqn:E.
    + intros [= <- <-]. by apply strip_prefix_Some in E.
    + destruct (search p s) as [[b' a']|]; [|discriminate].
      intros [= <- <-]. rewrite app_cons_s. f_equal. by apply IH.
Qed.

Lemma search_shorter p s b a :
  p ≠ "" → search p s = Some (b, a) → String.length a < String.length s.
Proof.
  intros Hp Hs. apply search_Some in Hs as ->.
  rewrite !length_app_s. destruct p; [done | simpl; lia].
Qed.

Lemma search_empty p : p ≠ "" → search p "" = None.
Proof. by destruct p. Qed.

Lemma search_None p s : search p s = None ↔ occurrences p s = 0.
Proof.
  induction s as [|c s IH]; simpl.
  - destruct (strip_prefix p ""); split; (done || lia).
  - destruct (strip_prefix p (String c s)); [split; (done || lia) |].
    simpl. rewrite <- IH. destruct (search p s) as [[??]|]; split; done.
Qed.

Lemma occurrences_app_r p x y : occurrences p y ≤ occurrences p (x +:+ y).
Proof. induction x as [|c x IH]; [done | rewrite app_cons_s; simpl; lia]. Qed.

Lemma occurrences_at_head p a :
  p ≠ "" → S (occurrences p a) ≤ occurrences p (p +:+ a).
Proof.
  intros Hp. destruct p as [|c p]; [done |].
  pose proof (strip_prefix_app (String c p) a) as Hpre.
  pose proof (occurrences_app_r (String c p) p a).
  rewrite app_cons_s in *. cbn [occurrences]. rewrite Hpre. lia.
Qed.

Lemma occurrences_app_mid p b a :
  p ≠ "" → S (occurrences p a) ≤ occurrences p (b +:+ p +:+ a).
Proof.
  intros Hp. pose proof (occurrences_at_head p a Hp).
  pose proof (occurrences_app_r p b (p +:+ a)). lia.
Qed.

(** An occurrence that is the only one is the one [search] finds. *)
Lemma search_unique p b a :
  p ≠ "" → occurrences p (b +:+ p +:+ a) = 1 → search p (b +:+ p +:+ a) = Some (b, a).
Proof.
  intros Hp. induction b as [|c b IH]; intros Hocc.
  - rewrite app_nil_s. pose proof (strip_prefix_app p a) as Hpre.
    destruct p as [|c p]; [done |].
    rewrite app_cons_s in *. cbn [search]. by rewrite Hpre.
  - rewrite app_cons_s in *.
    cbn [occurrences] in Hocc. cbn [search].
    pose proof (occurrences_app_mid p b a Hp).
    destruct (strip_prefix p (String c (b +:+ p +:+ a))); [lia |].
    rewrite IH; [done | lia].
Qed.

Lemma mem_char_skip c p q a :
  mem_char c q = false →
  occurrences (String c p) (q +:+ a) = occurrences (String c p) a.
Proof.
  induction q as [|d q IH]; [done |]. rewrite app_cons_s. simpl.
  destruct (Ascii.eqb c d); [done |]. simpl. done.
Qed.

Lemma occurrences_search p s b a :
  head_fresh p = true → search p s = Some (b, a) →
  occurrences p s = S (occurrences p a).
Proof.
  intros Hp. revert b. induction s as [|c s IH]; intros b.
  - destruct p; [done | discriminate].
  - cbn [search occurrences].
    destruct (strip_prefix p (String c s)) as [r|] eqn:E.
    + intros [= <- <-]. apply strip_prefix_Some in E.
      destruct p as [|d p]; [done |]. injection E as <- ->.
      simpl in Hp. apply negb_true_iff in Hp.
      by rewrite (mem_char_skip _ _ _ _ Hp).
    + destruct (search p s) as [[b' a']|] eqn:E'; [|discriminate].
      intros [= <- <-]. by rewrite (IH b').
Qed.

Lemma head_fresh_nonempty p : head_fresh p = true → p ≠ "".
Proof. by destruct p. Qed.

(** [String.length s] rounds are all [re_split] needs. *)
Lemma re_split_from_enough p s n :
  p ≠ "" → String.length s ≤ n →
  re_split_from n p s = re_split_from (String.length s) p s.
Proof.
  intros Hp. revert s.
  induction n as [n IH] using lt_wf_ind. intros s Hn.
  destruct n as [|n].
  - destruct s; [done | simpl in Hn; lia].
  - destruct s as [|c s].
    + cbn [re_split_from String.length]. by rewrite search_empty.
    + cbn [re_split_from String.length].
      destruct (search p (String c s)) as [[b a]|] eqn:E; [|done].
      pose proof (search_shorter _ _ _ _ Hp E) as Hlt. simpl in Hlt, Hn.
      f_equal. rewrite (IH n) by lia. symmetry. apply IH; lia.
Qed.

Lemma re_split_unfold p s :
  p ≠ "" →
  re_split p s =
  match search p s with
  | None => [s]
  | Some (b, a) => b :: re_split p a
  end.
Proof.
  intros Hp. unfold re_split. destruct s as [|c s].
  - cbn [re_split_from String.length]. by rewrite search_empty.
  - cbn [re_split_from String.length].
    destruct (search p (String c s)) as [[b a]|] eqn:E; [|done].
    pose proof (search_shorter _ _ _ _ Hp E) as Hlt. simpl in Hlt.
    f_equal. apply re_split_from_enough; [done | lia].
Qed.

Lemma length_re_split p s :
  head_fresh p = true → length (re_split p s) = S (occurrences p s).
Proof.
  intros Hp. pose proof (head_fresh_nonempty _ Hp) as Hne.
  remember (String.length s) as n eqn:Hn. revert s Hn.
  induction n as [n IH] using lt_wf_ind. intros s ->.
  rewrite re_split_unfold by done.
  destruct (search p s) as [[b a]|] eqn:E.
  - rewrite (occurrences_search _ _ _ _ Hp E). simpl. f_equal.
    eapply IH; [|done]. by eapply search_shorter.
  - apply search_None in E. by rewrite E.
Qed.

(** The unpacking [b, a = re.split(p, s)] in one equation. *)
Lemma cut_eq p s :
  head_fresh p = true →
  unpack2 (re_split p s) =
  if Nat.eqb (occurrences p s) 1 then Ok (before p s, after p s)
  else Raise (ValueError 2 (S (occurrences p s))).
Proof.
  intros Hp. pose proof (head_fresh_nonempty _ Hp) as Hne.
  pose proof (length_re_split p s Hp) as Hlen.
  unfold before, after. rewrite re_split_unfold in * by done.
  destruct (search p s) as [[b a]|] eqn:E.
  - pose proof (occurrences_search _ _ _ _ Hp E) as Ho.
    rewrite re_split_unfold in * by done.
    destruct (search p a) as [[b' a']|] eqn:E'.
    + pose proof (occurrences_search _ _ _ _ Hp E') as Ho'.
      rewrite Ho, Ho'. simpl. simpl in Hlen. rewrite Ho, Ho' in Hlen.
      destruct (re_split p a'); simpl in *; [lia | do 2 f_equal; lia].
    + apply search_None in E'. rewrite Ho, E'. done.
  - apply search_None in E. rewrite E. done.
Qed.

(** ** [strip] *)

Lemma lstrip_start s : starts_with_space (lstrip s) = false.
Proof.
  induction s as [|c s IH]; [done |]. simpl.
  destruct (isspace c) eqn:E; [done | by simpl].
Qed.

Lemma rstrip_end s : ends_with_space (rstrip s) = false.
Proof.
  induction s as [|c s IH]; [done |]. simpl.
  destruct (rstrip s) as [|d r] eqn:E.
  - destruct (isspace c) eqn:Ec; [done | by simpl].
  - done.
Qed.

Lemma rstrip_start s : starts_with_space s = false → starts_with_space (rstrip s) = false.
Proof.
  destruct s as [|c s]; [done |]. simpl. intros Hc.
  destruct (rstrip s); [by rewrite Hc | done].
Qed.

Lemma strip_trimmed s : trimmed (strip s) = true.
Proof.
  unfold trimmed, strip.
  by rewrite rstrip_start, rstrip_end by apply lstrip_start.
Qed.

Lemma all_space_lstrip s : all_space (lstrip s) = all_space s.
Proof.
  induction s as [|c s IH]; [done |]. simpl.
  destruct (isspace c) eqn:E; [done | by simpl; rewrite E].
Qed.

Lemma rstrip_empty s : rstrip s = "" ↔ all_space s = true.
Proof.
  induction s as [|c s IH]; [done |]. simpl.
  destruct (rstrip s) as [|d r] eqn:E.
  - destruct (isspace c); simpl; [tauto | split; [done | done]].
  - destruct (isspace c); simpl; split; try done.
    intros H. apply IH in H. done.
Qed.

Lemma strip_empty s : strip s = "" ↔ all_space s = true.
Proof. unfold strip. by rewrite rstrip_empty, all_space_lstrip. Qed.

(** * [ModelBase.split_prompt] *)

Import ModelBase.

(** A marker that occurs once in a text, cut out of any tail of that text
    that still contains it. *)
Lemma cut_tail p x b a :
  head_fresh p = true → occurrences p (x +:+ b +:+ p +:+ a) = 1 →
  unpack2 (re_split p (b +:+ p +:+ a)) = Ok (b, a).
Proof.
  intros Hp Hocc. pose proof (head_fresh_nonempty _ Hp) as Hne.
  pose proof (occurrences_app_r p x (b +:+ p +:+ a)).
  pose proof (occurrences_app_mid p b a Hne).
  assert (occurrences p (b +:+ p +:+ a) = 1) as H1 by lia.
  rewrite cut_eq, H1 by done. simpl.
  unfold before, after. by rewrite search_unique.
Qed.

(** What [split_prompt] returns, stage by stage. *)
Lemma split_prompt_eq prompt :
  split_prompt prompt =
  let r1 := after pat_rules prompt in
  let r2 := after pat_summary r1 in
  let r3 := after pat_affected r2 in
  if negb (occurrences pat_rules prompt =? 1)
  then Raise (ValueError 2 (S (occurrences pat_rules prompt)))
  else if negb (occurrences pat_summary r1 =? 1)
  then Raise (ValueError 2 (S (occurrences pat_summary r1)))
  else if negb (occurrences pat_affected r2 =? 1)
  then Raise (ValueError 2 (S (occurrences pat_affected r2)))
  else if negb (occurrences pat_result r3 =? 1)
  then Raise (ValueError 2 (S (occurrences pat_result r3)))
  else Ok {| Instructions := strip (before pat_rules prompt);
             Rules := strip (before pat_summary r1);
             Summary := strip (before pat_affected r2);
             AffectedFiles := strip (before pat_result r3);
             Result := strip (after pat_result r3) |}.
Proof.
  unfold split_prompt. cbv zeta.
  rewrite (cut_eq pat_rules) by reflexivity.
  destruct (occurrences pat_rules prompt =? 1); [|done]. cbn [mbind result_bind negb].
  rewrite (cut_eq pat_summary) by reflexivity.
  destruct (occurrences pat_summary _ =? 1); [|done]. cbn [mbind result_bind negb].
  rewrite (cut_eq pat_affected) by reflexivity.
  destruct (occurrences pat_affected _ =? 1); [|done]. cbn [mbind result_bind negb].
  rewrite (cut_eq pat_result) by reflexivity.
  destruct (occurrences pat_result _ =? 1); [|done]. done.
Qed.

Lemma after_occurrences p q s : occurrences q (after p s) ≤ occurrences q s.
Proof.
  unfold after. destruct (search p s) as [[b a]|] eqn:E.
  - apply search_Some in E as ->. rewrite <- app_assoc_s. apply occurrences_app_r.
  - destruct q, s; simpl; lia.
Qed.

Lemma before_after p s :
  occurrences p s = 1 → s = before p s +:+ p +:+ after p s.
Proof.
  intros Hocc. unfold before, after.
  destruct (search p s) as [[b a]|] eqn:E; [by apply search_Some |].
  apply search_None in E. lia.
Qed.

Lemma document_summary i r s a x :
  document i r s a x =
  (i +:+ pat_rules) +:+ r +:+ pat_summary +:+ s +:+ pat_affected +:+ a +:+ pat_result +:+ x.
Proof. unfold document. by rewrite !app_assoc_s. Qed.

Lemma document_affected i r s a x :
  document i r s a x =
  (i +:+ pat_rules +:+ r +:+ pat_summary) +:+ s +:+ pat_affected +:+ a +:+ pat_result +:+ x.
Proof. unfold document. by rewrite !app_assoc_s. Qed.

Lemma document_result i r s a x :
  document i r s a x =
  (i +:+ pat_rules +:+ r +:+ pat_summary +:+ s +:+ pat_affected) +:+ a +:+ pat_result +:+ x.
Proof. unfold document. by rewrite !app_assoc_s. Qed.

(** C1, as the claim states it, fails: the Summary marker occurs twice in
    [prompt_summary_twice], once before the Rules marker and once after it,
    and [split_prompt] returns a SplitPrompt, the stray marker being part of
    the Instructions. *)
Lemma split_prompt_accepts_repeated_marker :
  pat_summary ∈ markers ∧
  occurrences pat_summary prompt_summary_twice = 2 ∧
  split_prompt prompt_summary_twice =
    Ok {| Instructions := pat_summary +:+ " i"; Rules := "r"; Summary := "s";
          AffectedFiles := "a"; Result := "x" |}.
Proof.
  split; [unfold markers; set_solver |]. split; vm_compute; reflexivity.
Qed.

(** C1, amended: [split_prompt] raises the ValueError of the unpacking when
    one of the four markers occurs nowhere in the prompt, or when a marker
    occurs twice or more in the text that is split on it (the whole prompt
    for the Rules marker, the text after the preceding marker for the other
    three). *)
Theorem split_prompt_missing_or_repeated prompt :
  (∃ m, m ∈ markers ∧ occurrences m prompt = 0) ∨
  (∃ m t, (m, t) ∈ scopes prompt ∧ 2 ≤ occurrences m t) →
  ∃ got, split_prompt prompt = Raise (ValueError 2 got).
Proof.
  intros H. rewrite split_prompt_eq. cbv zeta.
  pose proof (after_occurrences pat_rules pat_summary prompt) as Hs.
  pose proof (after_occurrences pat_rules pat_affected prompt) as Ha1.
  pose proof (after_occurrences pat_summary pat_affected (after pat_rules prompt)) as Ha2.
  pose proof (after_occurrences pat_rules pat_result prompt) as Hr1.
  pose proof (after_occurrences pat_summary pat_result (after pat_rules prompt)) as Hr2.
  pose proof (after_occurrences pat_affected pat_result
                (after pat_summary (after pat_rules prompt))) as Hr3.
  destruct (Nat.eqb_spec (occurrences pat_rules prompt) 1) as [E1|]; [|by eexists].
  destruct (Nat.eqb_spec (occurrences pat_summary (after pat_rules prompt)) 1) as [E2|];
    [|by eexists].
  destruct (Nat.eqb_spec (occurrences pat_affected
              (after pat_summary (after pat_rules prompt))) 1) as [E3|]; [|by eexists].
  destruct (Nat.eqb_spec (occurrences pat_result
              (after pat_affected (after pat_summary (after pat_rules prompt)))) 1)
    as [E4|]; [|by eexists].
  exfalso. destruct H as [(m & Hm & H0) | (m & t & Hmt & H2)].
  - unfold markers in Hm. rewrite !elem_of_cons, elem_of_nil in Hm.
    destruct Hm as [-> | [-> | [-> | [-> | []]]]]; lia.
  - unfold scopes in Hmt. rewrite !elem_of_cons, elem_of_nil in Hmt.
    destruct Hmt as [[= -> ->] | [[= -> ->] | [[= -> ->] | [[= -> ->] | []]]]]; lia.
Qed.

Lemma split_prompt_missing_or_repeated_witness :
  occurrences pat_rules "Rules" = 0 ∧
  ∃ got, split_prompt "Rules" = Raise (ValueError 2 got).
Proof.
  split; [reflexivity |].
  apply (split_prompt_missing_or_repeated "Rules").
  left. exists pat_rules. split; [left | reflexivity].
Defined.

(** C8, as the claim states it, fails twice over.  [prompt_bare_markers] has
    each marker exactly once and every field comes back empty; and
    [prompt_result_first] has each marker exactly once, the Result marker
    ahead of the others, and [split_prompt] raises. *)
Lemma split_prompt_empty_fields_and_disorder :
  well_formed prompt_bare_markers = true ∧
  split_prompt prompt_bare_markers =
    Ok {| Instructions := ""; Rules := ""; Summary := ""; AffectedFiles := "";
          Result := "" |} ∧
  well_formed prompt_result_first = true ∧
  split_prompt prompt_result_first = Raise (ValueError 2 1).
Proof. repeat split; vm_compute; reflexivity. Qed.

(** C8, amended: for every prompt in which the four markers occur exactly
    once each and in document order, [split_prompt] returns the five
    sections, each trimmed of leading and trailing whitespace; a field is
    empty exactly when its section holds nothing but whitespace. *)
Theorem split_prompt_document i r s a x :
  well_formed (document i r s a x) = true →
  split_prompt (document i r s a x) =
    Ok {| Instructions := strip i; Rules := strip r; Summary := strip s;
          AffectedFiles := strip a; Result := strip x |} ∧
  Forall (λ t, trimmed (strip t) = true ∧ (strip t = "" ↔ all_space t = true))
         [i; r; s; a; x].
Proof.
  intros Hwf. split.
  - unfold well_formed in Hwf. rewrite !andb_true_iff, !Nat.eqb_eq in Hwf.
    destruct Hwf as [[[H1 H2] H3] H4].
    unfold split_prompt, document.
    rewrite (cut_tail pat_rules "" i _ eq_refl H1). cbn [mbind result_bind].
    rewrite document_summary in H2.
    rewrite (cut_tail pat_summary _ r _ eq_refl H2). cbn [mbind result_bind].
    rewrite document_affected in H3.
    rewrite (cut_tail pat_affected _ s _ eq_refl H3). cbn [mbind result_bind].
    rewrite document_result in H4.
    rewrite (cut_tail pat_result _ a _ eq_refl H4). cbn [mbind result_bind].
    done.
  - repeat constructor; (apply strip_trimmed || apply strip_empty).
Qed.

Lemma split_prompt_document_witness :
  well_formed (document " i " "r" "s" "a" " ") = true ∧
  split_prompt (document " i " "r" "s" "a" " ") =
    Ok {| Instructions := "i"; Rules := "r"; Summary := "s";
          AffectedFiles := "a"; Result := "" |}.
Proof.
  split; [reflexivity |].
  apply (split_prompt_document " i " "r" "s" "a" " "). reflexivity.
Defined.

(** C9, as the claim states it, fails: in [prompt_long_underline] the title
    [Rules] is underlined with six [=], one more than its width, and
    [split_prompt] succeeds; the sixth [=] opens the Rules field. *)
Lemma split_prompt_accepts_long_underline :
  run_length "=" (after ("Rules" +:+ nl) prompt_long_underline) = 6 ∧
  String.length "Rules" = 5 ∧
  split_prompt prompt_long_underline =
    Ok {| Instructions := "i"; Rules := "=" +:+ nl +:+ "r"; Summary := "s";
          AffectedFiles := "a"; Result := "x" |}.
Proof. repeat split; vm_compute; reflexivity. Qed.

(** C9, amended: [split_prompt] succeeds only on prompts that contain the
    four marker literals (title, line feed, and as many [=] as the title is
    wide) as substrings in document order, and then returns the five texts
    around them, trimmed.  It asks nothing of the text that follows a
    marker, so further [=] characters after an underline are accepted and
    belong to the next field. *)
Theorem split_prompt_only_documents prompt sp :
  split_prompt prompt = Ok sp →
  ∃ i r s a x,
    prompt = document i r s a x ∧
    sp = {| Instructions := strip i; Rules := strip r; Summary := strip s;
            AffectedFiles := strip a; Result := strip x |}.
Proof.
  rewrite split_prompt_eq. cbv zeta.
  destruct (Nat.eqb_spec (occurrences pat_rules prompt) 1) as [E1|]; [|done].
  destruct (Nat.eqb_spec (occurrences pat_summary (after pat_rules prompt)) 1) as [E2|];
    [|done].
  destruct (Nat.eqb_spec (occurrences pat_affected
              (after pat_summary (after pat_rules prompt))) 1) as [E3|]; [|done].
  destruct (Nat.eqb_spec (occurrences pat_result
              (after pat_affected (after pat_summary (after pat_rules prompt)))) 1)
    as [E4|]; [|done].
  cbn [negb]. intros [= <-].
  eexists _, _, _, _, _. split; [|reflexivity].
  unfold document.
  rewrite <- (before_after _ _ E4), <- (before_after _ _ E3), <- (before_after _ _ E2).
  by apply before_after.
Qed.

Lemma split_prompt_only_documents_witness :
  ∃ i r s a x,
    prompt_long_underline = document i r s a x ∧
    {| Instructions := "i"; Rules := "=" +:+ nl +:+ "r"; Summary := "s";
       AffectedFiles := "a"; Result := "x" |} =
    {| Instructions := strip i; Rules := strip r; Summary := strip s;
       AffectedFiles := strip a; Result := strip x |}.
Proof.
  apply (split_prompt_only_documents prompt_long_underline). reflexivity.
Defined.

(** * The backends' prompts *)

Lemma Gemma_prompt_ignores_include_rules generate prompt include_rules :
  Gemma_7B_Instruct.prompt generate prompt include_rules =
  Gemma_7B_Instruct.prompt generate prompt true.
Proof. reflexivity. Qed.

(** Without rules, Mistral's and CodeLLama's chats are built from the other
    four fields only, and LLama2 refuses. *)
Lemma Mistral_compose_without_rules sp rules' :
  Mistral8x7BInstructV01.compose sp false =
  Mistral8x7BInstructV01.compose
    {| Instructions := Instructions sp; Rules := rules'; Summary := Summary sp;
       AffectedFiles := AffectedFiles sp; Result := Result sp |} false.
Proof. reflexivity. Qed.

Lemma CodeLLama_compose_without_rules sp rules' :
  CodeLLama_xB_Instruct.compose sp false =
  CodeLLama_xB_Instruct.compose
    {| Instructions := Instructions sp; Rules := rules'; Summary := Summary sp;
       AffectedFiles := AffectedFiles sp; Result := Result sp |} false.
Proof. reflexivity. Qed.

Lemma LLama2_prompt_without_rules generate prompt :
  LLama2_xB_Chat.prompt generate prompt false =
  Raise (Exception "This model does not work correctly without rules.").
Proof. reflexivity. Qed.

(** C2: [Gemma_7B_Instruct.prompt] with [include_rules = False] on
    [prompt_with_rules] hands the pretrained model a text that contains the
    Rules section, heading and body, and raises nothing of its own. *)
Theorem Gemma_prompt_without_rules_keeps_rules generate :
  well_formed prompt_with_rules = true ∧
  Gemma_7B_Instruct.prompt generate prompt_with_rules false =
    generate (Text (full_document
      {| Instructions := "Classify."; Rules := "No force pushes."; Summary := "s";
         AffectedFiles := "a"; Result := "x" |})) ∧
  occurrences (pat_rules +:+ "No force pushes.")
    (full_document
      {| Instructions := "Classify."; Rules := "No force pushes."; Summary := "s";
         AffectedFiles := "a"; Result := "x" |}) = 1.
Proof.
  split; [reflexivity |]. split; [|vm_compute; reflexivity].
  unfold Gemma_7B_Instruct.prompt.
  replace (split_prompt prompt_with_rules) with
    (Ok {| Instructions := "Classify."; Rules := "No force pushes."; Summary := "s";
           AffectedFiles := "a"; Result := "x" |}) by (vm_compute; reflexivity).
  reflexivity.
Qed.

(** * The dispatcher: reachability *)

Lemma run_task_from_rtc n o l i l' : run_task_from n o l i = Some l' → rtc step l l'.
Proof.
  revert l. induction n as [|n IH]; intros l; simpl.
  - destruct (tasks l !! i) as [t|]; [|done]. simpl.
    destruct (t_pc t); try done. by intros [= ->].
  - destruct (tasks l !! i) as [t|]; [|done]. simpl.
    destruct (task_step o l i) as [l1|] eqn:E;
      destruct (t_pc t); simpl; try done; try (by intros [= ->]);
      intros H; (eapply rtc_l; [by eapply step_task | by apply IH]).
Qed.

Lemma run_schedule_rtc acts l l' : run_schedule acts l = Some l' → rtc step l l'.
Proof.
  revert l. induction acts as [|[model prompt | i o | i o] acts IH]; intros l; simpl.
  - by intros [= ->].
  - intros H. eapply rtc_l; [by eapply step_submit | by apply IH].
  - destruct (task_step o l i) as [l1|] eqn:E; [|done]. simpl.
    intros H. eapply rtc_l; [by eapply step_task | by apply IH].
  - destruct (run_task o l i) as [l1|] eqn:E; [|done]. simpl.
    intros H. etrans; [by eapply run_task_from_rtc | by apply IH].
Qed.

Lemma run_schedule_reachable acts use_device l :
  run_schedule acts (initial use_device) = Some l → reachable l.
Proof. intros H. exists use_device. by apply (run_schedule_rtc acts). Qed.

Lemma reachable_step l l' : reachable l → rtc step l l' → reachable l'.
Proof. intros [d H] H'. exists d. by etrans. Qed.

(** * The dispatcher: who holds a semaphore *)

Lemma holder_update l l' i t p :
  tasks l !! i = Some t →
  tasks l' = <[i := with_pc t p]> (tasks l) →
  ∀ j m, holder l' j m ↔
         (j ≠ i ∧ holder l j m) ∨ (j = i ∧ t_model t = m ∧ holds (with_pc t p) = true).
Proof.
  intros Hi Ht j m. unfold holder. rewrite Ht.
  destruct (decide (j = i)) as [-> | Hne].
  - rewrite list_lookup_insert_eq by (by eapply lookup_lt_Some). split.
    + intros (t' & [= <-] & Hm & Hh). right. done.
    + intros [[? _] | (_ & Hm & Hh)]; [done |]. eexists. done.
  - rewrite list_lookup_insert_ne by done. split.
    + intros H. left. done.
    + intros [[_ H] | [? _]]; done.
Qed.

Lemma holder_submit l model prompt l' f :
  prompt_model l model prompt = Ok (l', f) →
  ∀ j m, holder l' j m ↔ holder l j m.
Proof.
  intros [= <- <-] j m. unfold holder. simpl. split.
  - intros (t & Ht & Hm & Hh). apply lookup_app_Some in Ht as [Ht | [_ Ht]]; [by eexists |].
    apply list_lookup_singleton_Some in Ht as [_ <-]. done.
  - intros (t & Ht & Hm & Hh). exists t. split; [|done].
    apply lookup_app_Some. by left.
Qed.

Lemma locks_inv_same l l' :
  Api.locks (api l') = Api.locks (api l) →
  (∀ j m, holder l' j m ↔ holder l j m) →
  locks_inv l → locks_inv l'.
Proof.
  intros Hl Hh [D V U K]. split.
  - intros m. rewrite Hl. apply D.
  - intros m v. rewrite Hl. intros Hv.
    destruct (V m v Hv) as [[-> N] | [-> [j Hj]]]; [left | right].
    + split; [done |]. intros j Hj. apply (N j). by apply Hh.
    + split; [done |]. exists j. by apply Hh.
  - intros i j m Hi Hj. apply (U i j m); by apply Hh.
  - intros j m Hj. apply (K j m). by apply Hh.
Qed.

Lemma locks_inv_acquire l l' i m0 v :
  Api.locks (api l) !! m0 = Some (S v) →
  Api.locks (api l') = <[m0 := v]> (Api.locks (api l)) →
  (∀ j m, holder l' j m ↔ holder l j m ∨ (j = i ∧ m = m0)) →
  (∀ m, ¬ holder l i m) →
  locks_inv l → locks_inv l'.
Proof.
  intros Hm0 Hl Hh Hi [D V U K].
  destruct (V m0 _ Hm0) as [[[= ->] N0] | [[=] _]].
  split.
  - intros m. rewrite Hl, <- D. destruct (decide (m = m0)) as [-> | Hne].
    + rewrite lookup_insert_eq, Hm0. split; eauto.
    + by rewrite lookup_insert_ne.
  - intros m w. rewrite Hl. destruct (decide (m = m0)) as [-> | Hne].
    + rewrite lookup_insert_eq. intros [= <-]. right. split; [done |].
      exists i. apply Hh. by right.
    + rewrite lookup_insert_ne by done. intros Hw.
      destruct (V m w Hw) as [[-> N] | [-> [j Hj]]]; [left | right].
      * split; [done |]. intros j Hj. apply Hh in Hj as [Hj | [_ ->]]; [|done].
        by apply (N j).
      * split; [done |]. exists j. apply Hh. by left.
  - intros j k m Hj Hk. apply Hh in Hj, Hk.
    destruct Hj as [Hj | [Ej Em]], Hk as [Hk | [Ek Em']]; simplify_eq; try done.
    + by apply (U j k m).
    + by destruct (N0 j).
    + by destruct (N0 k).
  - intros j m Hj. apply Hh in Hj as [Hj | [_ ->]]; [by apply (K j m) |].
    apply D. eauto.
Qed.

Lemma locks_inv_release l l' i m0 :
  Api.locks (api l') = alter S m0 (Api.locks (api l)) →
  holder l i m0 →
  (∀ j m, holder l' j m ↔ holder l j m ∧ j ≠ i) →
  locks_inv l → locks_inv l'.
Proof.
  intros Hl Hi Hh [D V U K].
  assert (Api.locks (api l) !! m0 = Some 0) as Hm0.
  { destruct (proj2 (D m0) (K _ _ Hi)) as [v Hv].
    destruct (V m0 v Hv) as [[-> N] | [-> _]]; [by destruct (N i) | done]. }
  split.
  - intros m. rewrite Hl, <- D. destruct (decide (m = m0)) as [-> | Hne].
    + rewrite lookup_alter_eq, Hm0. split; eauto.
    + by rewrite lookup_alter_ne.
  - intros m w. rewrite Hl. destruct (decide (m = m0)) as [-> | Hne].
    + rewrite lookup_alter_eq, Hm0. intros [= <-]. left. split; [done |].
      intros j Hj. apply Hh in Hj as [Hj Hne]. apply Hne. by apply (U j i m0).
    + rewrite lookup_alter_ne by done. intros Hw.
      destruct (V m w Hw) as [[-> N] | [-> [j Hj]]]; [left | right].
      * split; [done |]. intros j Hj. apply Hh in Hj as [Hj _]. by apply (N j).
      * split; [done |]. exists j. apply Hh. split; [done |].
        intros ->. apply Hne. destruct Hj as (t & Ht & <- & _).
        destruct Hi as (t' & Ht' & <- & _). congruence.
  - intros j k m Hj Hk. apply Hh in Hj as [Hj _], Hk as [Hk _]. by apply (U j k m).
  - intros j m Hj. apply Hh in Hj as [Hj _]. by apply (K j m).
Qed.

Lemma holder_same l l' i t p :
  tasks l !! i = Some t →
  tasks l' = <[i := with_pc t p]> (tasks l) →
  holds (with_pc t p) = holds t →
  ∀ j m, holder l' j m ↔ holder l j m.
Proof.
  intros Hi Ht Hh j m. rewrite (holder_update l l' i t p Hi Ht). rewrite Hh. split.
  - intros [[_ H] | (-> & Hm & Hh')]; [done |]. by exists t.
  - intros H. destruct (decide (j = i)) as [-> | Hne]; [right | by left].
    destruct H as (t' & Ht' & Hm & Hh'). by simplify_eq.
Qed.

Lemma holder_gain l l' i t p :
  tasks l !! i = Some t →
  tasks l' = <[i := with_pc t p]> (tasks l) →
  holds t = false → holds (with_pc t p) = true →
  (∀ j m, holder l' j m ↔ holder l j m ∨ (j = i ∧ m = t_model t)) ∧
  (∀ m, ¬ holder l i m).
Proof.
  intros Hi Ht Hf Hh.
  assert (∀ m, ¬ holder l i m) as Hno.
  { intros m (t' & Ht' & _ & Hh'). simplify_eq. congruence. }
  split; [|done].
  intros j m. rewrite (holder_update l l' i t p Hi Ht). rewrite Hh. split.
  - intros [[_ H] | (-> & Hm & _)]; [by left | by right].
  - intros [H | [-> ->]]; [|by right].
    left. split; [|done]. intros ->. by destruct (Hno m).
Qed.

Lemma holder_lose l l' i t p :
  tasks l !! i = Some t →
  tasks l' = <[i := with_pc t p]> (tasks l) →
  holds t = true → holds (with_pc t p) = false →
  (∀ j m, holder l' j m ↔ holder l j m ∧ j ≠ i) ∧ holder l i (t_model t).
Proof.
  intros Hi Ht Hh Hf. split; [|by exists t].
  intros j m. rewrite (holder_update l l' i t p Hi Ht). rewrite Hf. split.
  - intros [[? H] | (_ & _ & ?)]; done.
  - intros [H Hne]. by left.
Qed.

(** The cases of [task_step o l i = Some l']. *)
Ltac task_step_cases H t Ht :=
  unfold task_step in H;
  match type of H with
  | context [tasks ?l !! ?i] => destruct (tasks l !! i) as [t|] eqn:Ht; [|discriminate H]
  end;
  cbn [mbind option_bind] in H;
  let Hpc := fresh "Hpc" in
  destruct (t_pc t) as [| | | instance | [|] |] eqn:Hpc;
  [ let Hl := fresh "Hlock" in
    destruct (Api.locks _ !! t_model t) as [[|v]|] eqn:Hl; [discriminate H | |]
  | let Hav := fresh "Hav" in let Hm := fresh "Hmodel" in
    destruct (bool_decide (t_model t ∈ Api.available_models)) eqn:Hav;
    [destruct (Api.models _ !! t_model t) as [instance|] eqn:Hm |]
  | let Hin := fresh "Hinst" in
    destruct (Api.instantiate _ _ (t_model t) ∅) as [instance|e] eqn:Hin
  | | | | discriminate H ];
  injection H as <-.

Lemma locks_inv_submit l model prompt l' f :
  prompt_model l model prompt = Ok (l', f) → locks_inv l → locks_inv l'.
Proof.
  intros H. apply locks_inv_same; [by injection H as <- <- | by eapply holder_submit].
Qed.

Lemma locks_inv_task_step o l i l' :
  task_step o l i = Some l' → locks_inv l → locks_inv l'.
Proof.
  intros H HI. task_step_cases H t Ht.
  - (* acquire *)
    assert (holds t = false) as Hf by (unfold holds; by rewrite Hpc).
    destruct (holder_gain l (move l i t AtGetModel
                {| Api.dev := Api.dev (api l); Api.models := Api.models (api l);
                   Api.locks := <[t_model t := v]> (Api.locks (api l)) |}
                [EvAcquire (t_model t)]) i t AtGetModel Ht eq_refl Hf eq_refl)
      as [Hh Hno].
    by eapply (locks_inv_acquire l).
  - (* no such semaphore *)
    apply (locks_inv_same l); [done | | done].
    eapply (holder_same l _ i t (AtFinally false)); [done | done |].
    unfold holds. by rewrite Hpc.
  - apply (locks_inv_same l); [done | | done].
    eapply (holder_same l _ i t (InPrompt instance)); [done | done |].
    unfold holds. by rewrite Hpc.
  - apply (locks_inv_same l); [done | | done].
    eapply (holder_same l _ i t InConstructor); [done | done |].
    unfold holds. by rewrite Hpc.
  - apply (locks_inv_same l); [done | | done].
    eapply (holder_same l _ i t (AtFinally true)); [done | done |].
    unfold holds. by rewrite Hpc.
  - apply (locks_inv_same l); [done | | done].
    eapply (holder_same l _ i t (InPrompt instance)); [done | done |].
    unfold holds. by rewrite Hpc.
  - apply (locks_inv_same l); [done | | done].
    eapply (holder_same l _ i t (AtFinally true)); [done | done |].
    unfold holds. by rewrite Hpc.
  - apply (locks_inv_same l); [done | | done].
    eapply (holder_same l _ i t (AtFinally true)); [done | done |].
    unfold holds. by rewrite Hpc.
  - (* release *)
    assert (holds t = true) as Hf by (unfold holds; by rewrite Hpc).
    destruct (holder_lose l (move l i t Finished
                {| Api.dev := Api.dev (api l); Api.models := Api.models (api l);
                   Api.locks := alter S (t_model t) (Api.locks (api l)) |}
                [EvRelease (t_model t)]) i t Finished Ht eq_refl Hf eq_refl)
      as [Hh Hi].
    by eapply (locks_inv_release l).
  - apply (locks_inv_same l); [done | | done].
    eapply (holder_same l _ i t Finished); [done | done |].
    unfold holds. by rewrite Hpc.
Qed.

(** * The dispatcher: futures *)

Lemma futures_inv_submit l model prompt l' f :
  prompt_model l model prompt = Ok (l', f) → futures_inv l → futures_inv l'.
Proof.
  intros [= <- <-] [L I St]. split; simpl.
  - rewrite !length_app. simpl. lia.
  - intros i t Hi. apply lookup_app_Some in Hi as [Hi | [Hge Hi]]; [by apply I |].
    apply list_lookup_singleton_Some in Hi as [Hi <-]. simpl. lia.
  - intros i t Hi Hu. apply lookup_app_Some in Hi as [Hi | [Hge Hi]].
    + specialize (St i t Hi Hu). apply lookup_lt_Some in Hi.
      rewrite lookup_app_l by lia. done.
    + apply list_lookup_singleton_Some in Hi as [Hi <-].
      replace i with (length (futures l)) by lia. by apply list_lookup_middle.
Qed.

Lemma futures_inv_move l i t p a evs :
  tasks l !! i = Some t →
  unresolved (with_pc t p) = unresolved t →
  futures_inv l → futures_inv (move l i t p a evs).
Proof.
  intros Hi Hu [L I St]. pose proof (lookup_lt_Some _ _ _ Hi) as Hlt.
  split; simpl.
  - by rewrite length_insert.
  - intros j t' Hj. apply list_lookup_insert_Some in Hj as [(<- & <- & _) | [_ Hj]].
    + simpl. by apply I.
    + by apply I.
  - intros j t' Hj. apply list_lookup_insert_Some in Hj as [(<- & <- & _) | [_ Hj]].
    + rewrite Hu. by apply St.
    + by apply St.
Qed.

(** Settling a pending future. *)
Lemma settle_pending f r fs :
  fs !! f = Some Pending → settle f r fs = (<[f := stored r]> fs, escaping r).
Proof.
  intros Hf. unfold settle, set_future. rewrite Hf.
  destruct r as [v|e]; [done |].
  destruct e; cbn; rewrite ?Hf; try done; by rewrite (list_insert_id _ _ _ Hf).
Qed.

Lemma futures_inv_resolve l i t r g :
  tasks l !! i = Some t →
  unresolved t = true →
  futures_inv l →
  futures_inv (resolve l i t r g) ∧
  futures (resolve l i t r g) = <[i := stored r]> (futures l) ∧
  log (resolve l i t r g) = (log l ++ uncaught (escaping r))%list.
Proof.
  intros Hi Hu [L I St]. pose proof (lookup_lt_Some _ _ _ Hi) as Hlt.
  pose proof (St i t Hi Hu) as Hp.
  assert (settle (t_future t) r (futures l) = (<[i := stored r]> (futures l), escaping r))
    as Hs by (rewrite (I i t Hi); by apply settle_pending).
  assert (futures (resolve l i t r g) = <[i := stored r]> (futures l)) as Hf
    by (cbn [futures resolve]; by rewrite Hs).
  split; [|split; [done | cbn [log resolve]; by rewrite Hs]].
  split; rewrite ?Hf; simpl.
  - by rewrite !length_insert.
  - intros j t' Hj. apply list_lookup_insert_Some in Hj as [(<- & <- & _) | [_ Hj]].
    + simpl. by apply I.
    + by apply I.
  - intros j t' Hj. apply list_lookup_insert_Some in Hj as [(<- & <- & _) | [Hne Hj]].
    + done.
    + rewrite list_lookup_insert_ne by done. by apply St.
Qed.

Lemma futures_inv_task_step o l i l' :
  task_step o l i = Some l' → futures_inv l → futures_inv l'.
Proof.
  intros H HI. task_step_cases H t Ht;
    first [ apply futures_inv_move; [done | unfold unresolved; simpl; by rewrite Hpc | done]
          | apply futures_inv_resolve; [done | unfold unresolved; by rewrite Hpc | done] ].
Qed.

(** * The dispatcher: the cache of backends *)

Lemma count_event_app e evs evs' :
  count_event e (evs ++ evs')%list = count_event e evs + count_event e evs'.
Proof. unfold count_event. by rewrite filter_app, length_app. Qed.

Lemma count_event_one e e' :
  count_event e [e'] = if decide (e' = e) then 1 else 0.
Proof.
  unfold count_event. rewrite filter_cons, filter_nil. by case_decide.
Qed.

Lemma count_event_uncaught e escaped :
  (∀ e', e ≠ EvUncaught e') → count_event e (uncaught escaped) = 0.
Proof.
  intros H. destruct escaped as [e'|]; [|done]. cbn [uncaught].
  rewrite count_event_one, decide_False; [done |]. intros Heq. by apply (H e').
Qed.

Lemma instantiate_Ok load self model instance :
  Api.instantiate load self model ∅ = Ok instance →
  model = class_name Mistral ∧ cls instance = Mistral ∧ load = Ok ().
Proof.
  unfold Api.instantiate, Api.globals.
  destruct (String.eqb_spec model (class_name Mistral)) as [-> | _].
  - cbn. destruct load as [[]|e]; [|done]. intros [= <-]. done.
  - destruct (String.eqb_spec model (class_name LLama2)) as [-> | _]; [done |].
    destruct (String.eqb_spec model (class_name CodeLLama)) as [-> | _]; done.
Qed.

Lemma instantiate_sized load self model :
  model = class_name LLama2 ∨ model = class_name CodeLLama →
  Api.instantiate load self model ∅ =
  Raise (TypeError "missing 1 required positional argument: 'size'").
Proof. intros [-> | ->]; reflexivity. Qed.

Lemma models_inv_submit l model prompt l' f :
  prompt_model l model prompt = Ok (l', f) → models_inv l → models_inv l'.
Proof.
  intros [= <- <-] [C S K]. split; simpl; [|done|done].
  intros i t Hi. apply lookup_app_Some in Hi as [Hi | [_ Hi]]; [by apply (C i) |].
  by apply list_lookup_singleton_Some in Hi as [_ <-].
Qed.

Lemma models_inv_same l l' i t p :
  tasks l !! i = Some t →
  tasks l' = <[i := with_pc t p]> (tasks l) →
  (p = InConstructor → Api.models (api l) !! t_model t = None) →
  Api.models (api l') = Api.models (api l) →
  (∀ m, count_event (EvStore m) (log l') = count_event (EvStore m) (log l)) →
  models_inv l → models_inv l'.
Proof.
  intros Hi Ht Hp Hm Hl [C S K]. split.
  - intros j t' Hj Hpc. rewrite Hm. rewrite Ht in Hj.
    apply list_lookup_insert_Some in Hj as [(<- & <- & _) | [_ Hj]].
    + simpl in *. by apply Hp.
    + by apply (C j).
  - intros m. by rewrite Hl, Hm.
  - intros m instance. rewrite Hm. apply K.
Qed.

Lemma models_inv_store l l' i t instance :
  tasks l !! i = Some t →
  t_pc t = InConstructor →
  tasks l' = <[i := with_pc t (InPrompt instance)]> (tasks l) →
  Api.models (api l') = <[t_model t := instance]> (Api.models (api l)) →
  log l' = (log l ++ [EvStore (t_model t)])%list →
  t_model t = class_name Mistral ∧ cls instance = Mistral →
  locks_inv l → models_inv l → models_inv l'.
Proof.
  intros Hi Hpc Ht Hm Hl [Hname Hcls] HL [C S K].
  pose proof (C i t Hi Hpc) as Hnone. split.
  - intros j t' Hj Hpc'. rewrite Hm. rewrite Ht in Hj.
    apply list_lookup_insert_Some in Hj as [(<- & <- & _) | [Hne Hj]]; [done |].
    destruct (decide (t_model t = t_model t')) as [Heq | Hneq].
    + destruct Hne. apply (li_unique l HL i j (t_model t)).
      * exists t. unfold holds. by rewrite Hpc.
      * exists t'. unfold holds. by rewrite Hpc'.
    + rewrite lookup_insert_ne by done. by apply (C j).
  - intros m. rewrite Hl, Hm, count_event_app, count_event_one, S.
    destruct (decide (m = t_model t)) as [-> | Hne].
    + rewrite lookup_insert_eq, Hnone. by rewrite decide_True.
    + rewrite lookup_insert_ne by done. rewrite decide_False by congruence. lia.
  - intros m instance'. rewrite Hm.
    destruct (decide (m = t_model t)) as [-> | Hne].
    + rewrite lookup_insert_eq. by intros [= <-].
    + rewrite lookup_insert_ne by done. apply K.
Qed.

Lemma models_inv_task_step o l i l' :
  task_step o l i = Some l' → locks_inv l → models_inv l → models_inv l'.
Proof.
  intros H HL HI. task_step_cases H t Ht.
  6: { apply instantiate_Ok in Hinst as (Hn & Hc & _).
       by eapply (models_inv_store l _ i t instance). }
  all: eapply (models_inv_same l _ i t); [done | done | try done | done | | done].
  all: try (intros m; simpl; rewrite ?count_event_app, ?count_event_one;
            rewrite ?count_event_uncaught by done;
            rewrite ?decide_False by done; unfold count_event; simpl; lia).
Qed.

(** * The dispatcher: every reachable state satisfies the invariants *)

Lemma locks_initial use_device m :
  Api.locks (Api.init use_device) !! m =
  if bool_decide (m ∈ Api.available_models) then Some 1 else None.
Proof.
  unfold Api.init, Api.available_models. cbn [Api.locks fmap list_fmap list_to_map foldr uncurry].
  destruct (decide (m = class_name Mistral)) as [-> | H1]; [by rewrite lookup_insert_eq |].
  rewrite lookup_insert_ne by done.
  destruct (decide (m = class_name LLama2)) as [-> | H2]; [by rewrite lookup_insert_eq |].
  rewrite lookup_insert_ne by done.
  destruct (decide (m = class_name CodeLLama)) as [-> | H3]; [by rewrite lookup_insert_eq |].
  rewrite lookup_insert_ne by done. rewrite lookup_empty.
  rewrite bool_decide_eq_false_2; [done |].
  rewrite !elem_of_cons, elem_of_nil. tauto.
Qed.

Lemma inv_initial use_device : inv (initial use_device).
Proof.
  split; [|split].
  - split; simpl; [done | done | done].
  - split.
    + intros m. cbn [api initial]. rewrite locks_initial.
      case_bool_decide as Hm; split; [done | by eexists | by intros [? [=]] | done].
    + intros m v. cbn [api initial]. rewrite locks_initial.
      case_bool_decide; [|done]. intros [= <-]. left. split; [done |].
      intros j (t & [=] & _).
    + intros i j m (t & [=] & _).
    + intros j m (t & [=] & _).
  - split; simpl; [done | | done]. intros m. by rewrite lookup_empty.
Qed.

Lemma inv_step l l' : step l l' → inv l → inv l'.
Proof.
  intros Hstep (HF & HL & HM). destruct Hstep as [l model prompt l' f H | l i o l' H].
  - split; [|split];
      [by eapply futures_inv_submit | by eapply locks_inv_submit | by eapply models_inv_submit].
  - split; [|split];
      [by eapply futures_inv_task_step | by eapply locks_inv_task_step
      | by eapply models_inv_task_step].
Qed.

Lemma inv_rtc l l' : rtc step l l' → inv l → inv l'.
Proof. induction 1 as [|l l1 l2 H _ IH]; [done |]. intros HI. apply IH. by eapply inv_step. Qed.

Lemma reachable_inv l : reachable l → inv l.
Proof. intros [d H]. eapply inv_rtc; [done | apply inv_initial]. Qed.

(** Two tasks that hold the semaphore of one model are one task. *)
Lemma lock_exclusive l i j ti tj :
  reachable l →
  tasks l !! i = Some ti → tasks l !! j = Some tj →
  t_model ti = t_model tj → holds ti = true → holds tj = true → i = j.
Proof.
  intros Hr Hi Hj Hm Hhi Hhj. destruct (reachable_inv l Hr) as (_ & HL & _).
  apply (li_unique l HL i j (t_model ti)); [by exists ti | by exists tj].
Qed.

(** C3: in every state the system can reach, whatever the interleaving of
    the tasks' steps and of new submissions, two different tasks for the same
    model name are never both inside the backend's [prompt] call. *)
Theorem prompt_calls_exclusive l i j ti tj :
  reachable l →
  tasks l !! i = Some ti → tasks l !! j = Some tj →
  i ≠ j → t_model ti = t_model tj →
  ¬ (in_prompt ti = true ∧ in_prompt tj = true).
Proof.
  intros Hr Hi Hj Hne Hm [Hpi Hpj]. apply Hne.
  apply (lock_exclusive l i j ti tj Hr Hi Hj Hm).
  - unfold in_prompt in Hpi. unfold holds. by destruct (t_pc ti).
  - unfold in_prompt in Hpj. unfold holds. by destruct (t_pc tj).
Qed.

(** After three steps of the first of two Mistral tasks, that task is inside
    [prompt]; the second one waits for the semaphore. *)
Lemma prompt_calls_exclusive_witness :
  tasks (state_after mistral_in_prompt) !! 0 =
    Some {| t_model := "Mistral8x7BInstructV01"; t_prompt := prompt_with_rules;
            t_future := 0;
            t_pc := InPrompt {| cls := Mistral; b_dev := "cuda"; size := None |} |} ∧
  tasks (state_after mistral_in_prompt) !! 1 =
    Some {| t_model := "Mistral8x7BInstructV01"; t_prompt := prompt_with_rules;
            t_future := 1; t_pc := AtAcquire |} ∧
  task_step ok_outcome (state_after mistral_in_prompt) 1 = None ∧
  ¬ (in_prompt {| t_model := "Mistral8x7BInstructV01"; t_prompt := prompt_with_rules;
                  t_future := 0;
                  t_pc := InPrompt {| cls := Mistral; b_dev := "cuda"; size := None |} |}
       = true ∧
     in_prompt {| t_model := "Mistral8x7BInstructV01"; t_prompt := prompt_with_rules;
                  t_future := 1; t_pc := AtAcquire |} = true).
Proof.
  split; [vm_compute; reflexivity |]. split; [vm_compute; reflexivity |].
  split; [vm_compute; reflexivity |].
  apply (prompt_calls_exclusive (state_after mistral_in_prompt) 0 1).
  - apply (run_schedule_reachable mistral_in_prompt "cuda"). vm_compute. reflexivity.
  - vm_compute. reflexivity.
  - vm_compute. reflexivity.
  - lia.
  - reflexivity.
Defined.

(** * The dispatcher: construction and the cache *)

Lemma get_model_cached load self model kwargs instance :
  Api.models self !! model = Some instance →
  model ∈ Api.available_models →
  Api._get_model load self model kwargs = (self, [], Ok instance).
Proof.
  intros Hm Hav. unfold Api._get_model.
  by rewrite bool_decide_eq_true_2, Hm.
Qed.

(** Once a name is cached, a step neither replaces its instance nor calls
    its constructor. *)
Lemma cached_step l l' m cached :
  step l l' → inv l →
  Api.models (api l) !! m = Some cached →
  Api.models (api l') !! m = Some cached ∧
  count_event (EvConstruct m) (log l') = count_event (EvConstruct m) (log l).
Proof.
  intros Hstep (_ & _ & [C _ _]) Hm.
  destruct Hstep as [l model prompt l' f [= <- <-] | l i o l' H]; [done |].
  task_step_cases H t Ht; simpl;
    rewrite ?count_event_app, ?count_event_one; try done.
  all: rewrite ?count_event_uncaught by done.
  all: try (rewrite decide_False by done).
  all: try (split; [done | unfold count_event; simpl; lia]).
  - split; [done |]. rewrite decide_False; [lia |]. intros [= E]. congruence.
  - specialize (C i t Ht Hpc). rewrite lookup_insert_ne by congruence. split; [done | lia].
Qed.

Lemma cached_rtc l l' m instance :
  rtc step l l' → inv l →
  Api.models (api l) !! m = Some instance →
  Api.models (api l') !! m = Some instance ∧
  count_event (EvConstruct m) (log l') = count_event (EvConstruct m) (log l).
Proof.
  induction 1 as [|l l1 l2 H _ IH]; [done |]. intros HI Hm.
  destruct (cached_step l l1 m instance H HI Hm) as [Hm1 Hc1].
  destruct (IH (inv_step _ _ H HI) Hm1) as [Hm2 Hc2].
  split; [done | congruence].
Qed.

(** C4, as the claim states it, fails: two submissions for [LLama2_xB_Chat]
    call the constructor twice, and neither call caches an instance. *)
Lemma constructor_called_twice :
  reachable (state_after llama_twice) ∧
  "LLama2_xB_Chat" ∈ Api.available_models ∧
  count_event (EvConstruct "LLama2_xB_Chat") (log (state_after llama_twice)) = 2 ∧
  Api.models (api (state_after llama_twice)) !! "LLama2_xB_Chat" = None.
Proof.
  split.
  { apply (run_schedule_reachable llama_twice "cuda"). vm_compute. reflexivity. }
  split; [unfold Api.available_models; set_solver |].
  split; vm_compute; reflexivity.
Qed.

(** C4, amended: for every model name, at most one instance is ever stored
    in the cache of one Api object; once a name is cached, every later
    [_get_model] call for it returns that same instance, changes nothing,
    and the constructor is not called for that name again.  (A constructor
    call that raises stores nothing, and the next call for the name calls
    the constructor again.) *)
Theorem backend_cached_once l l' m instance load kwargs :
  reachable l →
  Api.models (api l) !! m = Some instance →
  rtc step l l' →
  count_event (EvStore m) (log l') = 1 ∧
  count_event (EvConstruct m) (log l') = count_event (EvConstruct m) (log l) ∧
  Api._get_model load (api l') m kwargs = (api l', [], Ok instance).
Proof.
  intros Hr Hm Hsteps. pose proof (reachable_inv l Hr) as HI.
  destruct (cached_rtc l l' m instance Hsteps HI Hm) as [Hm' Hc].
  destruct (inv_rtc l l' Hsteps HI) as (_ & _ & [_ S K]).
  split; [by rewrite S, Hm' |]. split; [done |].
  apply get_model_cached; [done |].
  destruct (K m instance Hm') as [-> _]. by left.
Qed.

Lemma backend_cached_once_witness :
  Api.models (api (state_after mistral_done)) !! "Mistral8x7BInstructV01" =
    Some {| cls := Mistral; b_dev := "cuda"; size := None |} ∧
  count_event (EvStore "Mistral8x7BInstructV01")
    (log (state_after (mistral_done ++ mistral_again))) = 1 ∧
  count_event (EvConstruct "Mistral8x7BInstructV01")
    (log (state_after (mistral_done ++ mistral_again))) =
  count_event (EvConstruct "Mistral8x7BInstructV01") (log (state_after mistral_done)) ∧
  Api._get_model (Ok ()) (api (state_after (mistral_done ++ mistral_again)))
    "Mistral8x7BInstructV01" ∅ =
    (api (state_after (mistral_done ++ mistral_again)), [],
     Ok {| cls := Mistral; b_dev := "cuda"; size := None |}).
Proof.
  split; [vm_compute; reflexivity |].
  apply (backend_cached_once (state_after mistral_done)).
  - apply (run_schedule_reachable mistral_done "cuda"). vm_compute. reflexivity.
  - vm_compute. reflexivity.
  - apply (run_schedule_rtc mistral_again). vm_compute. reflexivity.
Defined.

(** The number of instances stored for a name never exceeds one. *)
Lemma stored_at_most_once l m : reachable l → count_event (EvStore m) (log l) ≤ 1.
Proof.
  intros Hr. destruct (reachable_inv l Hr) as (_ & _ & [_ S _]).
  rewrite S. destruct (Api.models (api l) !! m); lia.
Qed.

(** * The dispatcher: running one task from its first line to its last *)

Lemma task_step_unfold o l i t :
  tasks l !! i = Some t →
  task_step o l i =
  match t_pc t with
  | AtAcquire =>
      match Api.locks (api l) !! t_model t with
      | None => Some (resolve l i t (Raise (KeyError (t_model t))) false)
      | Some O => None
      | Some (S v) =>
          Some (move l i t AtGetModel
                  {| Api.dev := Api.dev (api l); Api.models := Api.models (api l);
                     Api.locks := <[t_model t := v]> (Api.locks (api l)) |}
                  [EvAcquire (t_model t)])
      end
  | AtGetModel =>
      if bool_decide (t_model t ∈ Api.available_models) then
        match Api.models (api l) !! t_model t with
        | Some instance => Some (move l i t (InPrompt instance) (api l) [])
        | None => Some (move l i t InConstructor (api l) [EvConstruct (t_model t)])
        end
      else Some (resolve l i t (Raise (Api.not_known (t_model t))) true)
  | InConstructor =>
      match Api.instantiate (load o) (api l) (t_model t) ∅ with
      | Ok instance =>
          Some (move l i t (InPrompt instance)
                  {| Api.dev := Api.dev (api l);
                     Api.models := <[t_model t := instance]> (Api.models (api l));
                     Api.locks := Api.locks (api l) |}
                  [EvStore (t_model t)])
      | Raise e => Some (resolve l i t (Raise e) true)
      end
  | InPrompt instance =>
      Some (resolve l i t (instance_prompt (generate o) instance (t_prompt t) true) true)
  | AtFinally true =>
      Some (move l i t Finished
              {| Api.dev := Api.dev (api l); Api.models := Api.models (api l);
                 Api.locks := alter S (t_model t) (Api.locks (api l)) |}
              [EvRelease (t_model t)])
  | AtFinally false => Some (move l i t Finished (api l) [])
  | Finished => None
  end.
Proof. intros Ht. unfold task_step. by rewrite Ht. Qed.

Lemma run_task_from_S n o l i t :
  tasks l !! i = Some t → t_pc t ≠ Finished →
  run_task_from (S n) o l i = task_step o l i ≫= λ l', run_task_from n o l' i.
Proof. intros Ht Hpc. cbn [run_task_from]. rewrite Ht. cbn. by destruct (t_pc t). Qed.

Lemma run_task_from_finished n o l i t :
  tasks l !! i = Some t → t_pc t = Finished → run_task_from n o l i = Some l.
Proof. intros Ht Hpc. destruct n; cbn [run_task_from]; rewrite Ht; cbn; by rewrite Hpc. Qed.

Lemma release_acquire (m : string) (locks : gmap string nat) :
  locks !! m = Some 1 → alter S m (<[m := 0]> locks) = locks.
Proof.
  intros Hm. apply map_eq. intros k. destruct (decide (k = m)) as [-> | Hne].
  - by rewrite lookup_alter_eq, lookup_insert_eq, Hm.
  - by rewrite lookup_alter_ne, lookup_insert_ne.
Qed.

Ltac advance H :=
  rewrite (run_task_from_S _ _ _ _ _ H) by (cbn; congruence);
  rewrite (task_step_unfold _ _ _ _ H);
  cbn [t_pc with_pc t_model t_prompt t_future api move resolve Api.models Api.locks Api.dev].

Ltac finish_run H :=
  rewrite (run_task_from_finished _ _ _ _ _ H) by reflexivity;
  eexists; split; [reflexivity |].

Ltac advance_with Hlook :=
  match goal with
  | |- context [run_task_from (S ?n) ?o ?L ?i] =>
      let H := fresh "Hcur" in
      eassert (tasks L !! i = Some _) as H
        by (cbn [tasks move resolve with_pc]; apply Hlook; rewrite ?length_insert; reflexivity);
      advance H; clear H
  end.

Ltac finish_with Hlook :=
  match goal with
  | |- context [run_task_from ?n ?o ?L ?i] =>
      let H := fresh "Hcur" in
      eassert (tasks L !! i = Some _) as H
        by (cbn [tasks move resolve with_pc]; apply Hlook; rewrite ?length_insert; reflexivity);
      finish_run H; clear H
  end.

Lemma run_task_spec o l i t :
  inv l → tasks l !! i = Some t → t_pc t = AtAcquire →
  (∀ j, ¬ holder l j (t_model t)) →
  ∃ l', run_task o l i = Some l' ∧
    tasks l' = <[i := with_pc t Finished]> (tasks l) ∧
    futures l' = <[i := stored (task_result o (api l) (t_model t) (t_prompt t))]> (futures l) ∧
    Api.dev (api l') = Api.dev (api l) ∧
    Api.locks (api l') = Api.locks (api l) ∧
    match Api.locks (api l) !! t_model t with
    | None => Api.models (api l') = Api.models (api l) ∧ log l' = log l
    | Some _ =>
        Api.models (api l') =
          Api.models (Api._get_model (load o) (api l) (t_model t) ∅).1.1 ∧
        log l' = (log l ++ [EvAcquire (t_model t)] ++
                  (Api._get_model (load o) (api l) (t_model t) ∅).1.2 ++
                  uncaught (escaping (task_result o (api l) (t_model t) (t_prompt t))) ++
                  [EvRelease (t_model t)])%list
    end.
Proof.
  intros ([L I St] & [D V U K] & _) Ht Hpc Hfree.
  pose proof (lookup_lt_Some _ _ _ Ht) as Hlt.
  pose proof (I i t Ht) as Hid.
  assert (futures l !! i = Some Pending) as Hpend
    by (apply (St i t Ht); unfold unresolved; by rewrite Hpc).
  assert (∀ r, settle (t_future t) r (futures l) =
               (<[i := stored r]> (futures l), escaping r)) as Hset.
  { intros r. rewrite Hid. by apply settle_pending. }
  assert (∀ p (ts : list Task), length ts = length (tasks l) →
            <[i := {| t_model := t_model t; t_prompt := t_prompt t;
                      t_future := t_future t; t_pc := p |}]> ts !! i =
            Some {| t_model := t_model t; t_prompt := t_prompt t;
                    t_future := t_future t; t_pc := p |}) as Hlook.
  { intros p ts Hlen. apply list_lookup_insert_eq. lia. }
  unfold run_task, task_result.
  advance Ht. rewrite Hpc.
  destruct (Api.locks (api l) !! t_model t) as [v|] eqn:Hlock.
  - destruct (V _ _ Hlock) as [[-> _] | [_ [j Hj]]]; [|by destruct (Hfree j)].
    assert (t_model t ∈ Api.available_models) as Hav by (apply D; eauto).
    unfold Api._get_model. rewrite (bool_decide_eq_true_2 _ Hav).
    cbn [mbind option_bind].
    advance_with Hlook. rewrite (bool_decide_eq_true_2 _ Hav).
    destruct (Api.models (api l) !! t_model t) as [instance|] eqn:Hmodel.
    + cbn [mbind option_bind]. advance_with Hlook. cbn [mbind option_bind].
      advance_with Hlook. cbn [mbind option_bind].
      finish_with Hlook.
      cbn [tasks futures api log move resolve Api.dev Api.locks Api.models fst snd].
      rewrite !list_insert_insert_eq, !Hset, (release_acquire _ _ Hlock), <- !app_assoc.
      done.
    + cbn [mbind option_bind]. advance_with Hlook.
      change (Api.instantiate (load o) _ (t_model t) ∅)
        with (Api.instantiate (load o) (api l) (t_model t) ∅).
      destruct (Api.instantiate (load o) (api l) (t_model t) ∅) as [instance|e] eqn:Hinst.
      * cbn [mbind option_bind]. advance_with Hlook. cbn [mbind option_bind].
        advance_with Hlook. cbn [mbind option_bind].
        finish_with Hlook.
        cbn [tasks futures api log move resolve Api.dev Api.locks Api.models fst snd].
        rewrite !list_insert_insert_eq, !Hset, (release_acquire _ _ Hlock), <- !app_assoc.
        done.
      * cbn [mbind option_bind]. advance_with Hlook. cbn [mbind option_bind].
        finish_with Hlook.
        cbn [tasks futures api log move resolve Api.dev Api.locks Api.models fst snd].
        rewrite !list_insert_insert_eq, !Hset, (release_acquire _ _ Hlock), <- !app_assoc.
        done.
  - cbn [mbind option_bind]. advance_with Hlook. cbn [mbind option_bind].
    finish_with Hlook.
    cbn [tasks futures api log move resolve Api.dev Api.locks Api.models fst snd].
    rewrite !list_insert_insert_eq, !Hset. cbn [fst snd escaping is_Exception uncaught].
    rewrite !app_nil_r. done.
Qed.

Lemma quiescent_free l j m : quiescent l → ¬ holder l j m.
Proof.
  intros Hq (t & Ht & _ & Hh). unfold holds in Hh.
  destruct (Hq j t Ht) as [Hpc | Hpc]; by rewrite Hpc in Hh.
Qed.

Lemma unknown_free l j m : inv l → m ∉ Api.available_models → ¬ holder l j m.
Proof. intros (_ & HL & _) Hm Hj. apply Hm. by apply (li_known l HL j). Qed.

(** A submission, then the run of its task by the event loop. *)
Lemma submit_run l model prompt o :
  reachable l → (∀ j, ¬ holder l j model) →
  ∃ l1 l2,
    prompt_model l model prompt = Ok (l1, length (futures l)) ∧
    futures l1 !! length (futures l) = Some Pending ∧
    tasks l1 !! length (futures l) =
      Some {| t_model := model; t_prompt := prompt; t_future := length (futures l);
              t_pc := AtAcquire |} ∧
    api l1 = api l ∧
    run_task o l1 (length (futures l)) = Some l2 ∧
    futures l2 !! length (futures l) =
      Some (stored (task_result o (api l) model prompt)) ∧
    Api.dev (api l2) = Api.dev (api l) ∧
    Api.locks (api l2) = Api.locks (api l) ∧
    match Api.locks (api l) !! model with
    | None => Api.models (api l2) = Api.models (api l) ∧ log l2 = log l
    | Some _ =>
        Api.models (api l2) = Api.models (Api._get_model (load o) (api l) model ∅).1.1 ∧
        log l2 = (log l ++ [EvAcquire model] ++
                  (Api._get_model (load o) (api l) model ∅).1.2 ++
                  uncaught (escaping (task_result o (api l) model prompt)) ++
                  [EvRelease model])%list
    end ∧
    reachable l2 ∧ (quiescent l → quiescent l2).
Proof.
  intros Hr Hfree. pose proof (reachable_inv l Hr) as HI.
  pose proof HI as ([L _ _] & _ & _).
  set (f := length (futures l)).
  set (t := {| t_model := model; t_prompt := prompt; t_future := f; t_pc := AtAcquire |}).
  set (l1 := {| api := api l; futures := futures l ++ [Pending];
                tasks := tasks l ++ [t]; log := log l |}).
  assert (prompt_model l model prompt = Ok (l1, f)) as Hsub by reflexivity.
  assert (step l l1) as Hstep by (by eapply step_submit).
  assert (tasks l1 !! f = Some t) as Ht.
  { unfold f. rewrite L. simpl. by apply list_lookup_middle. }
  assert (∀ j, ¬ holder l1 j (t_model t)) as Hfree1.
  { intros j Hj. apply (Hfree j). by apply (holder_submit l model prompt l1 f Hsub). }
  destruct (run_task_spec o l1 f t (inv_step _ _ Hstep HI) Ht eq_refl Hfree1)
    as (l2 & Hrun & Hts & Hfs & Hdev & Hlocks & Hrest).
  exists l1, l2. split; [done |].
  split; [simpl; by apply list_lookup_middle |].
  split; [done |]. split; [done |]. split; [done |].
  split. { rewrite Hfs. apply list_lookup_insert_eq. simpl. rewrite length_app. simpl. lia. }
  split; [done |]. split; [done |]. split; [done |].
  split.
  { eapply reachable_step; [done |]. eapply rtc_l; [done |].
    by apply (run_task_from_rtc 5 o l1 f). }
  intros Hq j t' Hj. rewrite Hts in Hj.
  apply list_lookup_insert_Some in Hj as [(_ & <- & _) | [_ Hj]]; [by right |].
  simpl in Hj. apply lookup_app_Some in Hj as [Hj | [_ Hj]]; [by apply (Hq j) |].
  apply list_lookup_singleton_Some in Hj as [_ <-]. by left.
Qed.

Lemma quiescent_locks l m v :
  reachable l → quiescent l → Api.locks (api l) !! m = Some v → v = 1.
Proof.
  intros Hr Hq Hm. destruct (reachable_inv l Hr) as (_ & HL & _).
  destruct (li_value l HL m v Hm) as [[-> _] | [_ [j Hj]]]; [done |].
  by destruct (quiescent_free l j m Hq).
Qed.

Lemma get_model_events load self model kwargs e :
  count_event (EvUncaught e) (Api._get_model load self model kwargs).1.2 = 0.
Proof.
  unfold Api._get_model. case_bool_decide; [|done].
  destruct (Api.models self !! model); [done |].
  by destruct (Api.instantiate load self model kwargs).
Qed.

(** C5, as the claim states it, fails: when the backend's generation raises
    StopIteration, the [except] clause catches it, [set_exception] refuses
    it with a TypeError, and the task ends with its future still pending;
    a KeyboardInterrupt is not caught at all and also leaves the future
    pending.  The semaphore is released in both cases. *)
Lemma failure_not_captured :
  task_result stop_outcome (api (initial "cuda")) "Mistral8x7BInstructV01" prompt_with_rules =
    Raise StopIteration ∧
  task_result interrupt_outcome (api (initial "cuda")) "Mistral8x7BInstructV01"
    prompt_with_rules = Raise KeyboardInterrupt ∧
  ∃ l1 l2 l3,
    prompt_model (initial "cuda") "Mistral8x7BInstructV01" prompt_with_rules = Ok (l1, 0) ∧
    run_task stop_outcome l1 0 = Some l2 ∧
    futures l2 = [Pending] ∧
    log l2 =
      [EvAcquire "Mistral8x7BInstructV01"; EvConstruct "Mistral8x7BInstructV01";
       EvStore "Mistral8x7BInstructV01";
       EvUncaught (TypeError "StopIteration interacts badly with generators and cannot be raised into a Future");
       EvRelease "Mistral8x7BInstructV01"] ∧
    run_task interrupt_outcome l1 0 = Some l3 ∧
    futures l3 = [Pending] ∧
    log l3 =
      [EvAcquire "Mistral8x7BInstructV01"; EvConstruct "Mistral8x7BInstructV01";
       EvStore "Mistral8x7BInstructV01"; EvUncaught KeyboardInterrupt;
       EvRelease "Mistral8x7BInstructV01"].
Proof.
  split; [vm_compute; reflexivity |]. split; [vm_compute; reflexivity |].
  eexists _, _, _. split; [reflexivity |].
  split; [vm_compute; reflexivity |]. split; [vm_compute; reflexivity |].
  split; [vm_compute; reflexivity |]. split; [vm_compute; reflexivity |].
  split; vm_compute; reflexivity.
Qed.

(** C5, amended: when the [try] block of a submission's task raises [e],
    whether at the semaphore lookup, in [_get_model] or in the backend's
    [prompt], [prompt_model] itself has returned normally and the task runs
    to its end.  If [e] is an Exception other than StopIteration, the
    returned future holds [e] and no exception leaves the task; otherwise
    the future stays pending.  Whatever [e] is, the semaphores are as
    before, all released. *)
Theorem failure_captured_in_future l model prompt o e :
  reachable l → quiescent l →
  task_result o (api l) model prompt = Raise e →
  ∃ l1 f l2,
    prompt_model l model prompt = Ok (l1, f) ∧
    run_task o l1 f = Some l2 ∧
    futures l2 !! f = Some (if storable e then Done (Raise e) else Pending) ∧
    (storable e = true →
     ∀ e', count_event (EvUncaught e') (log l2) = count_event (EvUncaught e') (log l)) ∧
    Api.locks (api l2) = Api.locks (api l) ∧
    (∀ m v, Api.locks (api l2) !! m = Some v → v = 1) ∧
    reachable l2 ∧ quiescent l2.
Proof.
  intros Hr Hq He.
  destruct (submit_run l model prompt o Hr (λ j, quiescent_free l j model Hq))
    as (l1 & l2 & Hsub & _ & _ & _ & Hrun & Hfut & _ & Hlocks & Hrest & Hr2 & Hq2).
  exists l1, (length (futures l)), l2. rewrite He in Hfut, Hrest.
  split; [done |]. split; [done |]. split; [done |]. split.
  { intros Hs e'. destruct (Api.locks (api l) !! model).
    - destruct Hrest as [_ ->]. rewrite !count_event_app, get_model_events.
      assert (escaping (Raise e) = None) as -> by (by destruct e).
      rewrite !count_event_one, !decide_False by done. unfold count_event. simpl. lia.
    - by destruct Hrest as [_ ->]. }
  split; [done |]. split; [|by split; [|apply Hq2]].
  intros m v. rewrite Hlocks. by apply quiescent_locks.
Qed.

Lemma failure_captured_in_future_witness :
  task_result ok_outcome (api (initial "cuda")) "Mistral8x7BInstructV01" "no sections" =
    Raise (ValueError 2 1) ∧
  ∃ l1 f l2,
    prompt_model (initial "cuda") "Mistral8x7BInstructV01" "no sections" = Ok (l1, f) ∧
    run_task ok_outcome l1 f = Some l2 ∧
    futures l2 !! f =
      Some (if storable (ValueError 2 1) then Done (Raise (ValueError 2 1)) else Pending) ∧
    (storable (ValueError 2 1) = true →
     ∀ e', count_event (EvUncaught e') (log l2) =
           count_event (EvUncaught e') (log (initial "cuda"))) ∧
    Api.locks (api l2) = Api.locks (api (initial "cuda")) ∧
    (∀ m v, Api.locks (api l2) !! m = Some v → v = 1) ∧
    reachable l2 ∧ quiescent l2.
Proof.
  split; [vm_compute; reflexivity |].
  apply (failure_captured_in_future (initial "cuda")).
  - exists "cuda". apply rtc_refl.
  - intros i t [=].
  - vm_compute. reflexivity.
Defined.

(** C6, as the claim states it, fails: for a name that is not available,
    [prompt_model] raises nothing; it returns a future, still pending, and
    has only queued the task. *)
Lemma prompt_model_returns_for_unknown_model :
  ("NotAModel" ∉ Api.available_models) ∧
  prompt_model (initial "cuda") "NotAModel" prompt_with_rules =
    Ok ({| api := Api.init "cuda"; futures := [Pending];
           tasks := [{| t_model := "NotAModel"; t_prompt := prompt_with_rules;
                        t_future := 0; t_pc := AtAcquire |}];
           log := [] |}, 0).
Proof.
  split; [|reflexivity].
  unfold Api.available_models. rewrite !elem_of_cons, elem_of_nil.
  intros [[=] | [[=] | [[=] | []]]].
Qed.

(** C6, amended: for every model name outside the available ones,
    [prompt_model] returns normally with a pending future and a queued task;
    the error is raised inside the task, by the lookup of the semaphore on
    its first line, as a KeyError for the name, and is stored in the future. *)
Theorem unknown_model_raised_in_task l model prompt o :
  reachable l → model ∉ Api.available_models →
  ∃ l1 f l2,
    prompt_model l model prompt = Ok (l1, f) ∧
    futures l1 !! f = Some Pending ∧
    tasks l1 !! f = Some {| t_model := model; t_prompt := prompt; t_future := f;
                            t_pc := AtAcquire |} ∧
    task_step o l1 f = Some l2 ∧
    futures l2 !! f = Some (Done (Raise (KeyError model))).
Proof.
  intros Hr Hm. pose proof (reachable_inv l Hr) as HI.
  destruct (submit_run l model prompt o Hr (λ j, unknown_free l j model HI Hm))
    as (l1 & _ & Hsub & Hpend & Ht & Hapi & _).
  assert (Api.locks (api l1) !! model = None) as Hlock.
  { rewrite Hapi. destruct HI as (_ & HL & _).
    apply eq_None_not_Some. intros H. by apply Hm, (li_dom l HL). }
  exists l1, (length (futures l)). eexists.
  split; [done |]. split; [done |]. split; [done |].
  rewrite (task_step_unfold _ _ _ _ Ht). cbn [t_pc t_model]. rewrite Hlock.
  split; [reflexivity |].
  cbn [futures resolve t_future]. rewrite (settle_pending _ _ _ Hpend).
  apply list_lookup_insert_eq. by eapply lookup_lt_Some.
Qed.

Lemma unknown_model_raised_in_task_witness :
  ("NotAModel" ∉ Api.available_models) ∧
  ∃ l1 f l2,
    prompt_model (initial "cuda") "NotAModel" prompt_with_rules = Ok (l1, f) ∧
    futures l1 !! f = Some Pending ∧
    tasks l1 !! f = Some {| t_model := "NotAModel"; t_prompt := prompt_with_rules;
                            t_future := f; t_pc := AtAcquire |} ∧
    task_step ok_outcome l1 f = Some l2 ∧
    futures l2 !! f = Some (Done (Raise (KeyError "NotAModel"))).
Proof.
  assert ("NotAModel" ∉ Api.available_models) as Hm.
  { unfold Api.available_models. rewrite !elem_of_cons, elem_of_nil.
    intros [[=] | [[=] | [[=] | []]]]. }
  split; [exact Hm |].
  apply (unknown_model_raised_in_task (initial "cuda")).
  - exists "cuda". apply rtc_refl.
  - exact Hm.
Defined.

(** C7: a submission for a name outside the available ones resolves its
    future to the KeyError for that name; the run of its task leaves the Api
    object as it was, cache and semaphores, and records no event: no
    semaphore is acquired and no constructor is called. *)
Theorem unknown_model_changes_nothing l model prompt o :
  reachable l → model ∉ Api.available_models →
  ∃ l1 f l2,
    prompt_model l model prompt = Ok (l1, f) ∧
    run_task o l1 f = Some l2 ∧
    futures l2 !! f = Some (Done (Raise (KeyError model))) ∧
    api l2 = api l ∧ log l2 = log l.
Proof.
  intros Hr Hm. pose proof (reachable_inv l Hr) as HI.
  destruct (submit_run l model prompt o Hr (λ j, unknown_free l j model HI Hm))
    as (l1 & l2 & Hsub & _ & _ & _ & Hrun & Hfut & Hdev & Hlocks & Hrest & _).
  assert (Api.locks (api l) !! model = None) as Hlock.
  { destruct HI as (_ & HL & _).
    apply eq_None_not_Some. intros H. by apply Hm, (li_dom l HL). }
  unfold task_result in Hfut. rewrite Hlock in Hfut, Hrest. destruct Hrest as [Hmodels Hlog].
  exists l1, (length (futures l)), l2. repeat split; try done.
  destruct (api l2), (api l). simpl in *. congruence.
Qed.

Lemma unknown_model_changes_nothing_witness :
  ("NotAModel" ∉ Api.available_models) ∧
  ∃ l1 f l2,
    prompt_model (initial "cuda") "NotAModel" prompt_with_rules = Ok (l1, f) ∧
    run_task ok_outcome l1 f = Some l2 ∧
    futures l2 !! f = Some (Done (Raise (KeyError "NotAModel"))) ∧
    api l2 = api (initial "cuda") ∧ log l2 = log (initial "cuda").
Proof.
  assert ("NotAModel" ∉ Api.available_models) as Hm.
  { unfold Api.available_models. rewrite !elem_of_cons, elem_of_nil.
    intros [[=] | [[=] | [[=] | []]]]. }
  split; [exact Hm |].
  apply (unknown_model_changes_nothing (initial "cuda")).
  - exists "cuda". apply rtc_refl.
  - exact Hm.
Defined.

(** C10: for the two size-parameterised names the constructor call of
    [_get_model], which [prompt_model]'s task makes without a [size], raises
    a TypeError.  In every state the dispatcher can reach, neither name is
    cached, every cached name is Mistral's, and a submission for either name
    resolves its future to that TypeError and leaves the cache as it was. *)
Theorem sized_models_fail l model prompt o :
  reachable l → quiescent l →
  model = "LLama2_xB_Chat" ∨ model = "CodeLLama_xB_Instruct" →
  Api.models (api l) !! model = None ∧
  (∀ m instance, Api.models (api l) !! m = Some instance → m = "Mistral8x7BInstructV01") ∧
  ∃ l1 f l2,
    prompt_model l model prompt = Ok (l1, f) ∧
    run_task o l1 f = Some l2 ∧
    futures l2 !! f =
      Some (Done (Raise (TypeError "missing 1 required positional argument: 'size'"))) ∧
    Api.models (api l2) = Api.models (api l).
Proof.
  intros Hr Hq Hmodel. destruct (reachable_inv l Hr) as (_ & HL & [_ _ K]).
  assert (Api.models (api l) !! model = None) as Hnone.
  { destruct (Api.models (api l) !! model) as [instance|] eqn:E; [|done].
    destruct (K _ _ E) as [-> _]. by destruct Hmodel. }
  assert (model ∈ Api.available_models) as Hav.
  { unfold Api.available_models. rewrite !elem_of_cons. destruct Hmodel as [-> | ->]; tauto. }
  split; [done |]. split; [intros m instance Hm; by destruct (K _ _ Hm) |].
  destruct (submit_run l model prompt o Hr (λ j, quiescent_free l j model Hq))
    as (l1 & l2 & Hsub & _ & _ & _ & Hrun & Hfut & _ & _ & Hrest & _).
  destruct (proj2 (li_dom l HL model) Hav) as [v Hlock].
  unfold task_result in Hfut. rewrite Hlock in Hfut, Hrest.
  unfold Api._get_model in Hfut, Hrest.
  rewrite (bool_decide_eq_true_2 _ Hav), Hnone, (instantiate_sized _ _ _ Hmodel)
    in Hfut, Hrest.
  exists l1, (length (futures l)), l2. destruct Hrest as [Hmodels _]. done.
Qed.

Lemma sized_models_fail_witness :
  Api.models (api (initial "cuda")) !! "LLama2_xB_Chat" = None ∧
  (∀ m instance, Api.models (api (initial "cuda")) !! m = Some instance →
                 m = "Mistral8x7BInstructV01") ∧
  ∃ l1 f l2,
    prompt_model (initial "cuda") "LLama2_xB_Chat" prompt_with_rules = Ok (l1, f) ∧
    run_task ok_outcome l1 f = Some l2 ∧
    futures l2 !! f =
      Some (Done (Raise (TypeError "missing 1 required positional argument: 'size'"))) ∧
    Api.models (api l2) = Api.models (api (initial "cuda")).
Proof.
  apply (sized_models_fail (initial "cuda")).
  - exists "cuda". apply rtc_refl.
  - intros i t [=].
  - left. reflexivity.
Defined.

(** Mistral's backend, whose constructor takes no [size], is constructed and
    cached by its first submission. *)
Lemma mistral_constructed :
  reachable (state_after mistral_done) ∧
  Api.models (api (state_after mistral_done)) !! "Mistral8x7BInstructV01" =
    Some {| cls := Mistral; b_dev := "cuda"; size := None |} ∧
  futures (state_after mistral_done) = [Done (Ok "adaptive: 100%")].
Proof.
  split.
  { apply (run_schedule_reachable mistral_done "cuda"). vm_compute. reflexivity. }
  split; vm_compute; reflexivity.
Qed.

(** * More on [split_prompt] and the backends' prompts *)

Lemma strip_prefix_app_l p x y r :
  strip_prefix p x = Some r → strip_prefix p (x +:+ y) = Some (r +:+ y).
Proof.
  intros H. apply strip_prefix_Some in H as ->. rewrite app_assoc_s.
  apply strip_prefix_app.
Qed.

Lemma occurrences_app_l p x y : occurrences p x ≤ occurrences p (x +:+ y).
Proof.
  induction x as [|c x IH].
  - destruct p, y; simpl; lia.
  - rewrite app_cons_s. cbn [occurrences].
    destruct (strip_prefix p (String c x)) as [r|] eqn:E.
    + rewrite <- app_cons_s, (strip_prefix_app_l _ _ y _ E). lia.
    + destruct (strip_prefix p (String c (x +:+ y))); lia.
Qed.

Lemma lstrip_suffix s : ∃ w, s = w +:+ lstrip s.
Proof.
  induction s as [|c s [w IH]]; [by exists "" |]. simpl.
  destruct (isspace c); [|by exists ""].
  exists (String c w). rewrite app_cons_s. by f_equal.
Qed.

Lemma rstrip_prefix s : ∃ w, s = rstrip s +:+ w.
Proof.
  induction s as [|c s [w IH]]; [by exists "" |]. simpl.
  destruct (rstrip s) as [|d r] eqn:E.
  - destruct (isspace c).
    + exists (String c s). done.
    + exists w. rewrite app_cons_s. f_equal. done.
  - exists w. rewrite app_cons_s. by f_equal.
Qed.

Lemma occurrences_strip p s : occurrences p (strip s) ≤ occurrences p s.
Proof.
  unfold strip. destruct (lstrip_suffix s) as [w Hw].
  destruct (rstrip_prefix (lstrip s)) as [w' Hw'].
  pose proof (occurrences_app_l p (rstrip (lstrip s)) w').
  pose proof (occurrences_app_r p w (lstrip s)).
  rewrite <- Hw' in *. rewrite <- Hw in *. lia.
Qed.

Lemma before_occurrences p q s : occurrences q (before p s) ≤ occurrences q s.
Proof.
  unfold before. destruct (search p s) as [[b a]|] eqn:E; [|done].
  apply search_Some in E as ->. apply occurrences_app_l.
Qed.

Lemma occurrences_before_self p s : p ≠ "" → occurrences p (before p s) = 0.
Proof.
  intros Hp. unfold before. destruct (search p s) as [[b a]|] eqn:E.
  - revert b E. induction s as [|c s IH]; intros b; cbn [search].
    + destruct (strip_prefix p "") as [r|]; [|done]. intros [= <- <-]. by destruct p.
    + destruct (strip_prefix p (String c s)) as [r|] eqn:Ep.
      * intros [= <- <-]. by destruct p.
      * destruct (search p s) as [[b' a']|] eqn:Es; [|done].
        intros [= <- <-]. cbn [occurrences]. rewrite (IH b' eq_refl).
        destruct (strip_prefix p (String c b')) as [r|] eqn:Eb; [|done].
        apply search_Some in Es. rewrite Es, <- app_cons_s in Ep.
        by rewrite (strip_prefix_app_l _ _ _ _ Eb) in Ep.
  - by apply search_None.
Qed.

Lemma occurrences_after_self p s :
  head_fresh p = true → occurrences p s = 1 → occurrences p (after p s) = 0.
Proof.
  intros Hp Hocc. unfold after. destruct (search p s) as [[b a]|] eqn:E.
  - rewrite (occurrences_search _ _ _ _ Hp E) in Hocc. lia.
  - by destruct p.
Qed.

(** X1: on success no field contains the marker that ends it, nor any
    marker that [split_prompt] has already cut on. *)
Theorem split_prompt_fields_marker_free prompt sp :
  split_prompt prompt = Ok sp →
  occurrences pat_rules (Instructions sp) = 0 ∧
  (∀ m, m ∈ [pat_rules; pat_summary] → occurrences m (Rules sp) = 0) ∧
  (∀ m, m ∈ [pat_rules; pat_summary; pat_affected] → occurrences m (Summary sp) = 0) ∧
  (∀ m, m ∈ markers → occurrences m (AffectedFiles sp) = 0) ∧
  (∀ m, m ∈ markers → occurrences m (Result sp) = 0).
Proof.
  rewrite split_prompt_eq. cbv zeta.
  set (r1 := after pat_rules prompt).
  set (r2 := after pat_summary r1).
  set (r3 := after pat_affected r2).
  destruct (Nat.eqb_spec (occurrences pat_rules prompt) 1) as [E1|]; [|done].
  destruct (Nat.eqb_spec (occurrences pat_summary r1) 1) as [E2|]; [|done].
  destruct (Nat.eqb_spec (occurrences pat_affected r2) 1) as [E3|]; [|done].
  destruct (Nat.eqb_spec (occurrences pat_result r3) 1) as [E4|]; [|done].
  cbn [negb]. intros [= <-]. cbn [Instructions Rules Summary AffectedFiles Result].
  pose proof (occurrences_after_self pat_rules prompt eq_refl E1) as A1.
  pose proof (occurrences_after_self pat_summary r1 eq_refl E2) as A2.
  pose proof (occurrences_after_self pat_affected r2 eq_refl E3) as A3.
  pose proof (occurrences_after_self pat_result r3 eq_refl E4) as A4.
  fold r1 in A1. fold r2 in A2. fold r3 in A3.
  assert (∀ q, occurrences q r2 ≤ occurrences q r1) as M2
    by (intros q; apply after_occurrences).
  assert (∀ q, occurrences q r3 ≤ occurrences q r2) as M3
    by (intros q; apply after_occurrences).
  assert (∀ q, occurrences q (after pat_result r3) ≤ occurrences q r3) as M4
    by (intros q; apply after_occurrences).
  assert (∀ p q s, occurrences q (strip (before p s)) ≤ occurrences q s) as B.
  { intros p q s. pose proof (occurrences_strip q (before p s)).
    pose proof (before_occurrences p q s). lia. }
  assert (∀ p s, p ≠ "" → occurrences p (strip (before p s)) = 0) as B0.
  { intros p s Hp. pose proof (occurrences_strip p (before p s)).
    pose proof (occurrences_before_self p s Hp). lia. }
  pose proof (occurrences_strip) as S.
  split; [by apply B0 |].
  split; [|split; [|split]]; intros m Hm; unfold markers in Hm;
    rewrite ?elem_of_cons, elem_of_nil in Hm.
  - destruct Hm as [-> | [-> | []]].
    + pose proof (B pat_summary pat_rules r1). lia.
    + by apply B0.
  - destruct Hm as [-> | [-> | [-> | []]]].
    + pose proof (B pat_affected pat_rules r2). pose proof (M2 pat_rules). lia.
    + pose proof (B pat_affected pat_summary r2). lia.
    + by apply B0.
  - destruct Hm as [-> | [-> | [-> | [-> | []]]]].
    + pose proof (B pat_result pat_rules r3). pose proof (M2 pat_rules).
      pose proof (M3 pat_rules). lia.
    + pose proof (B pat_result pat_summary r3). pose proof (M3 pat_summary). lia.
    + pose proof (B pat_result pat_affected r3). lia.
    + by apply B0.
  - pose proof (S m (after pat_result r3)). pose proof (M4 m).
    destruct Hm as [-> | [-> | [-> | [-> | []]]]].
    + pose proof (M2 pat_rules). pose proof (M3 pat_rules). lia.
    + pose proof (M3 pat_summary). lia.
    + lia.
    + lia.
Qed.

Lemma split_prompt_fields_marker_free_witness :
  split_prompt prompt_summary_twice =
    Ok {| Instructions := pat_summary +:+ " i"; Rules := "r"; Summary := "s";
          AffectedFiles := "a"; Result := "x" |} ∧
  occurrences pat_rules (pat_summary +:+ " i") = 0 ∧
  (∀ m, m ∈ [pat_rules; pat_summary] → occurrences m "r" = 0) ∧
  (∀ m, m ∈ [pat_rules; pat_summary; pat_affected] → occurrences m "s" = 0) ∧
  (∀ m, m ∈ markers → occurrences m "a" = 0) ∧
  (∀ m, m ∈ markers → occurrences m "x" = 0).
Proof.
  split; [vm_compute; reflexivity |].
  apply (split_prompt_fields_marker_free prompt_summary_twice
           {| Instructions := pat_summary +:+ " i"; Rules := "r"; Summary := "s";
              AffectedFiles := "a"; Result := "x" |}).
  vm_compute. reflexivity.
Defined.

Lemma lstrip_app_space w s : all_space w = true → lstrip (w +:+ s) = lstrip s.
Proof.
  induction w as [|c w IH]; [done |]. rewrite app_cons_s. simpl.
  destruct (isspace c); [apply IH | done].
Qed.

Lemma rstrip_app_space s w : all_space w = true → rstrip (s +:+ w) = rstrip s.
Proof.
  intros Hw. induction s as [|c s IH].
  - rewrite app_nil_s. by apply rstrip_empty.
  - rewrite app_cons_s. simpl. by rewrite IH.
Qed.

Lemma lstrip_app s w :
  lstrip (s +:+ w) = if all_space s then lstrip w else lstrip s +:+ w.
Proof.
  induction s as [|c s IH]; [done |]. rewrite app_cons_s. simpl.
  destruct (isspace c); [apply IH | done].
Qed.

Lemma lstrip_empty s : all_space s = true → lstrip s = "".
Proof.
  induction s as [|c s IH]; [done |]. simpl.
  destruct (isspace c); [apply IH | done].
Qed.

Lemma strip_pad_l w s : all_space w = true → strip (w +:+ s) = strip s.
Proof. intros Hw. unfold strip. by rewrite lstrip_app_space. Qed.

Lemma strip_pad_r s w : all_space w = true → strip (s +:+ w) = strip s.
Proof.
  intros Hw. unfold strip. rewrite lstrip_app.
  destruct (all_space s) eqn:Hs.
  - by rewrite (lstrip_empty w Hw), (lstrip_empty s Hs).
  - by apply rstrip_app_space.
Qed.

(** The template, as a document with its five sections. *)
Lemma full_document_document sp :
  full_document sp =
  document (Instructions sp +:+ nl +:+ nl) (Rules sp +:+ nl +:+ nl)
           (nl +:+ nl +:+ Summary sp +:+ nl +:+ nl)
           (nl +:+ nl +:+ AffectedFiles sp +:+ nl +:+ nl) question_should.
Proof.
  unfold full_document, summary_and_files, document. rewrite !app_assoc_s. reflexivity.
Qed.

(** X2: the text that [Gemma_7B_Instruct] and [LLama2_xB_Chat] compose is
    again a prompt; when each marker occurs exactly once in it,
    [split_prompt] gives back the four sections it was composed of,
    trimmed, and the fixed question as its Result. *)
Theorem split_prompt_full_document sp :
  well_formed (full_document sp) = true →
  split_prompt (full_document sp) =
    Ok {| Instructions := strip (Instructions sp); Rules := strip (Rules sp);
          Summary := strip (Summary sp); AffectedFiles := strip (AffectedFiles sp);
          Result := question_should |}.
Proof.
  intros Hwf. rewrite full_document_document in *.
  unfold well_formed in Hwf. rewrite !andb_true_iff, !Nat.eqb_eq in Hwf.
  destruct Hwf as [[[H1 H2] H3] H4].
  unfold split_prompt, document.
  rewrite (cut_tail pat_rules "" _ _ eq_refl H1). cbn [mbind result_bind].
  rewrite document_summary in H2.
  rewrite (cut_tail pat_summary _ _ _ eq_refl H2). cbn [mbind result_bind].
  rewrite document_affected in H3.
  rewrite (cut_tail pat_affected _ _ _ eq_refl H3). cbn [mbind result_bind].
  rewrite document_result in H4.
  rewrite (cut_tail pat_result _ _ _ eq_refl H4). cbn [mbind result_bind].
  assert (∀ s, strip (nl +:+ nl +:+ s) = strip s) as Hl
    by (intros s; exact (strip_pad_l (nl +:+ nl) s eq_refl)).
  assert (∀ s, strip (s +:+ nl +:+ nl) = strip s) as Hr
    by (intros s; exact (strip_pad_r s (nl +:+ nl) eq_refl)).
  rewrite !Hl, !Hr. reflexivity.
Qed.

Lemma split_prompt_full_document_witness :
  well_formed (full_document sample_sections) = true ∧
  split_prompt (full_document sample_sections) =
    Ok {| Instructions := strip "Classify."; Rules := strip "No force pushes.";
          Summary := strip "s"; AffectedFiles := strip "a";
          Result := question_should |}.
Proof.
  split; [vm_compute; reflexivity |].
  apply (split_prompt_full_document sample_sections). vm_compute. reflexivity.
Defined.

Lemma full_document_nonempty sp : full_document sp ≠ "".
Proof. unfold full_document. by destruct (Instructions sp). Qed.

Lemma search_at_head p a : p ≠ "" → search p (p +:+ a) = Some ("", a).
Proof.
  intros Hp. pose proof (strip_prefix_app p a) as Hpre.
  destruct p as [|c p]; [done |]. rewrite app_cons_s in *. cbn [search]. by rewrite Hpre.
Qed.

Lemma replace_by_empty_echo old answer :
  old ≠ "" → occurrences old answer = 0 →
  replace_by_empty old (old +:+ answer) = answer.
Proof.
  intros Hold Hocc. unfold replace_by_empty.
  rewrite re_split_unfold, search_at_head by done.
  rewrite re_split_unfold by done. apply search_None in Hocc. by rewrite Hocc.
Qed.

Lemma replace_by_empty_absent old s :
  old ≠ "" → occurrences old s = 0 → replace_by_empty old s = s.
Proof.
  intros Hold Hocc. unfold replace_by_empty.
  rewrite re_split_unfold by done. apply search_None in Hocc. by rewrite Hocc.
Qed.

(** X3: when the pipeline's generated text is the prompt it was given
    followed by a continuation in which that prompt does not occur,
    [LLama2_xB_Chat.prompt] returns the continuation, trimmed; when the
    generated text does not contain the prompt at all, it returns the whole
    generated text, trimmed. *)
Theorem LLama2_prompt_removes_echo generate prompt sp generated_text :
  split_prompt prompt = Ok sp →
  generate (Text (full_document sp)) = Ok generated_text →
  (∀ answer, generated_text = full_document sp +:+ answer →
             occurrences (full_document sp) answer = 0 →
             LLama2_xB_Chat.prompt generate prompt true = Ok (strip answer)) ∧
  (occurrences (full_document sp) generated_text = 0 →
   LLama2_xB_Chat.prompt generate prompt true = Ok (strip generated_text)).
Proof.
  intros Hsp Hgen. unfold LLama2_xB_Chat.prompt, LLama2_xB_Chat.compose.
  cbn [negb]. rewrite Hsp. cbn [mbind result_bind]. rewrite Hgen. cbn [mbind result_bind].
  split.
  - intros answer -> Hocc.
    by rewrite (replace_by_empty_echo _ _ (full_document_nonempty sp) Hocc).
  - intros Hocc.
    by rewrite (replace_by_empty_absent _ _ (full_document_nonempty sp) Hocc).
Qed.

Lemma LLama2_prompt_removes_echo_witness :
  split_prompt prompt_with_rules = Ok sample_sections ∧
  generate echo_outcome (Text (full_document sample_sections)) =
    Ok (full_document sample_sections +:+ " adaptive: 100% ") ∧
  occurrences (full_document sample_sections) " adaptive: 100% " = 0 ∧
  LLama2_xB_Chat.prompt (generate echo_outcome) prompt_with_rules true =
    Ok (strip " adaptive: 100% ").
Proof.
  assert (split_prompt prompt_with_rules = Ok sample_sections) as Hsp
    by (vm_compute; reflexivity).
  split; [exact Hsp |]. split; [reflexivity |]. split; [vm_compute; reflexivity |].
  apply (proj1 (LLama2_prompt_removes_echo (generate echo_outcome) prompt_with_rules
                  sample_sections _ Hsp eq_refl)).
  - reflexivity.
  - vm_compute. reflexivity.
Defined.

(** X4: no backend reads the Result section of the prompt: two prompts that
    split into the same Instructions, Rules, Summary and AffectedFiles are
    answered alike, whatever their Result sections are. *)
Theorem backends_ignore_result generate instance prompt prompt' sp result' include_rules :
  split_prompt prompt = Ok sp →
  split_prompt prompt' = Ok (with_result sp result') →
  instance_prompt generate instance prompt include_rules =
  instance_prompt generate instance prompt' include_rules.
Proof.
  intros H H'. unfold instance_prompt.
  destruct (cls instance);
    unfold Mistral8x7BInstructV01.prompt, LLama2_xB_Chat.prompt,
           CodeLLama_xB_Instruct.prompt, Gemma_7B_Instruct.prompt;
    rewrite H, H'; reflexivity.
Qed.

Lemma backends_ignore_result_witness :
  split_prompt prompt_with_rules = Ok sample_sections ∧
  split_prompt (document "Classify." " No force pushes. " " s " " a " " another question ") =
    Ok (with_result sample_sections "another question") ∧
  instance_prompt (generate echo_outcome) {| cls := Gemma; b_dev := "cuda"; size := None |}
    prompt_with_rules true =
  instance_prompt (generate echo_outcome) {| cls := Gemma; b_dev := "cuda"; size := None |}
    (document "Classify." " No force pushes. " " s " " a " " another question ") true.
Proof.
  assert (split_prompt prompt_with_rules = Ok sample_sections) as H
    by (vm_compute; reflexivity).
  assert (split_prompt
            (document "Classify." " No force pushes. " " s " " a " " another question ") =
          Ok (with_result sample_sections "another question")) as H'
    by (vm_compute; reflexivity).
  split; [exact H |]. split; [exact H' |].
  exact (backends_ignore_result _ _ _ _ _ _ true H H').
Defined.

(** X5: a prompt that [split_prompt] rejects is rejected by every backend
    with the same error, whatever the pretrained model would answer. *)
Theorem malformed_prompt_rejected generate instance prompt e :
  split_prompt prompt = Raise e →
  instance_prompt generate instance prompt true = Raise e.
Proof.
  intros H. unfold instance_prompt.
  destruct (cls instance);
    unfold Mistral8x7BInstructV01.prompt, LLama2_xB_Chat.prompt,
           CodeLLama_xB_Instruct.prompt, Gemma_7B_Instruct.prompt;
    cbn [negb]; by rewrite H.
Qed.

Lemma malformed_prompt_rejected_witness :
  split_prompt "no sections" = Raise (ValueError 2 1) ∧
  instance_prompt (generate echo_outcome) {| cls := CodeLLama; b_dev := "cuda"; size := Some "7b" |}
    "no sections" true = Raise (ValueError 2 1).
Proof.
  assert (split_prompt "no sections" = Raise (ValueError 2 1)) as H
    by (vm_compute; reflexivity).
  split; [exact H |]. exact (malformed_prompt_rejected _ _ _ _ H).
Defined.

(** X6: with [include_rules = False], Mistral's and CodeLLama's backends
    answer two prompts alike that differ in their Rules sections only: the
    Rules section is not part of what they send to the model; LLama2's
    backend raises its Exception, before it looks at the prompt. *)
Theorem rules_left_out generate instance prompt prompt' sp rules' :
  split_prompt prompt = Ok sp →
  split_prompt prompt' = Ok (with_rules sp rules') →
  match cls instance with
  | Mistral | CodeLLama =>
      instance_prompt generate instance prompt false =
      instance_prompt generate instance prompt' false
  | LLama2 =>
      instance_prompt generate instance prompt false =
      Raise (Exception "This model does not work correctly without rules.")
  | Gemma => True
  end.
Proof.
  intros H H'. unfold instance_prompt.
  destruct (cls instance); [| reflexivity | | exact I];
    unfold Mistral8x7BInstructV01.prompt, CodeLLama_xB_Instruct.prompt;
    rewrite H, H'; reflexivity.
Qed.

Lemma rules_left_out_witness :
  split_prompt prompt_with_rules = Ok sample_sections ∧
  split_prompt (document "Classify." " Other rules. " " s " " a " " x ") =
    Ok (with_rules sample_sections "Other rules.") ∧
  instance_prompt (generate echo_outcome) {| cls := Mistral; b_dev := "cuda"; size := None |}
    prompt_with_rules false =
  instance_prompt (generate echo_outcome) {| cls := Mistral; b_dev := "cuda"; size := None |}
    (document "Classify." " Other rules. " " s " " a " " x ") false.
Proof.
  assert (split_prompt prompt_with_rules = Ok sample_sections) as H
    by (vm_compute; reflexivity).
  assert (split_prompt (document "Classify." " Other rules. " " s " " a " " x ") =
          Ok (with_rules sample_sections "Other rules.")) as H'
    by (vm_compute; reflexivity).
  split; [exact H |]. split; [exact H' |].
  exact (rules_left_out (generate echo_outcome)
           {| cls := Mistral; b_dev := "cuda"; size := None |} _ _ _ _ H H').
Defined.

(** * More on the dispatcher *)

(** X7: the lock table keeps the keys [Api.__init__] gave it, one per
    available model; a semaphore's counter is 0 or 1, and it is 0 exactly
    while some task for that model holds it. *)
Theorem lock_table_binary l m :
  reachable l →
  (is_Some (Api.locks (api l) !! m) ↔ m ∈ Api.available_models) ∧
  (∀ v, Api.locks (api l) !! m = Some v → v ≤ 1 ∧ (v = 0 ↔ ∃ j, holder l j m)).
Proof.
  intros Hr. destruct (reachable_inv l Hr) as (_ & [D V U K] & _).
  split; [apply D |]. intros v Hv.
  destruct (V m v Hv) as [[-> N] | [-> H]].
  - split; [lia |]. split; [done |]. intros [j Hj]. by destruct (N j).
  - split; [lia |]. done.
Qed.

Lemma lock_table_binary_witness :
  (is_Some (Api.locks (api (state_after mistral_in_prompt)) !! "Mistral8x7BInstructV01") ↔
   "Mistral8x7BInstructV01" ∈ Api.available_models) ∧
  (∀ v, Api.locks (api (state_after mistral_in_prompt)) !! "Mistral8x7BInstructV01" = Some v →
        v ≤ 1 ∧
        (v = 0 ↔ ∃ j, holder (state_after mistral_in_prompt) j "Mistral8x7BInstructV01")).
Proof.
  apply (lock_table_binary (state_after mistral_in_prompt)).
  apply (run_schedule_reachable mistral_in_prompt "cuda"). vm_compute. reflexivity.
Defined.

Lemma balanced_step l l' : step l l' → locks_inv l → balanced l → balanced l'.
Proof.
  intros Hstep [D V U K] HB. destruct Hstep as [l model prompt l' f [= <- <-] | l i o l' H];
    [done |].
  task_step_cases H t Ht; intros m; specialize (HB m); simpl;
    rewrite ?count_event_app, ?count_event_one;
    rewrite ?count_event_uncaught by done;
    rewrite ?decide_False by done; rewrite ?Nat.add_0_r; try done.
  - (* acquire *)
    destruct (decide (m = t_model t)) as [-> | Hne].
    + rewrite lookup_insert_eq, decide_True by done. rewrite Hlock in HB. simpl in *. lia.
    + rewrite lookup_insert_ne, decide_False by congruence. lia.
  - (* release *)
    destruct (decide (m = t_model t)) as [-> | Hne].
    + assert (holder l i (t_model t)) as Hh by (exists t; unfold holds; by rewrite Hpc).
      destruct (proj2 (D _) (K _ _ Hh)) as [v Hv].
      rewrite lookup_alter_eq, decide_True by done. rewrite Hv in *. simpl in *. lia.
    + rewrite lookup_alter_ne, decide_False by congruence. lia.
Qed.

Lemma balanced_rtc use_device l : rtc step (initial use_device) l → balanced l.
Proof.
  revert l. apply (rtc_ind_r (λ l, balanced l) (initial use_device)).
  - intros m. cbn [api initial log]. rewrite locks_initial.
    unfold count_event. simpl. by case_bool_decide.
  - intros l l' Hrtc Hstep IH.
    destruct (inv_rtc _ _ Hrtc (inv_initial use_device)) as (_ & HL & _).
    by eapply balanced_step.
Qed.

(** X8: every recorded acquisition of a model's semaphore is matched by a
    release, except the one of the task that holds it now: the log has as
    many releases as acquisitions when the counter is 1 and one acquisition
    more when it is 0; between two task runs of the event loop the numbers
    are equal for every name. *)
Theorem acquire_release_balance l m :
  reachable l →
  (∀ v, Api.locks (api l) !! m = Some v →
        count_event (EvAcquire m) (log l) = count_event (EvRelease m) (log l) + (1 - v)) ∧
  (quiescent l → count_event (EvAcquire m) (log l) = count_event (EvRelease m) (log l)).
Proof.
  intros Hr. destruct Hr as [d Hrtc].
  pose proof (balanced_rtc d l Hrtc m) as HB.
  assert (reachable l) as Hr by (by exists d).
  destruct (reachable_inv l Hr) as (_ & [_ V _ _] & _).
  split.
  - intros v Hm. rewrite Hm in HB. simpl in HB.
    destruct (V m v Hm) as [[-> _] | [-> _]]; lia.
  - intros Hq. destruct (Api.locks (api l) !! m) as [v|] eqn:Hm; simpl in HB; [|lia].
    rewrite (quiescent_locks l m v Hr Hq Hm) in HB. lia.
Qed.

Lemma acquire_release_balance_witness :
  (∀ v, Api.locks (api (state_after mistral_in_prompt)) !! "Mistral8x7BInstructV01" = Some v →
        count_event (EvAcquire "Mistral8x7BInstructV01") (log (state_after mistral_in_prompt)) =
        count_event (EvRelease "Mistral8x7BInstructV01") (log (state_after mistral_in_prompt))
        + (1 - v)) ∧
  (quiescent (state_after mistral_in_prompt) →
   count_event (EvAcquire "Mistral8x7BInstructV01") (log (state_after mistral_in_prompt)) =
   count_event (EvRelease "Mistral8x7BInstructV01") (log (state_after mistral_in_prompt))).
Proof.
  apply (acquire_release_balance (state_after mistral_in_prompt)).
  apply (run_schedule_reachable mistral_in_prompt "cuda"). vm_compute. reflexivity.
Defined.

Lemma escaping_not_invalid r :
  count_event (EvUncaught InvalidStateError) (uncaught (escaping r)) = 0.
Proof. destruct r as [v|e]; [done |]. by destruct e. Qed.

Lemma no_invalid_state_step l l' :
  step l l' → futures_inv l →
  count_event (EvUncaught InvalidStateError) (log l') =
  count_event (EvUncaught InvalidStateError) (log l).
Proof.
  intros Hstep HF. destruct Hstep as [l model prompt l' f [= <- <-] | l i o l' H]; [done |].
  assert (∀ r g t, tasks l !! i = Some t → unresolved t = true →
            count_event (EvUncaught InvalidStateError) (log (resolve l i t r g)) =
            count_event (EvUncaught InvalidStateError) (log l)) as Hres.
  { intros r g t Ht Hu.
    destruct (futures_inv_resolve l i t r g Ht Hu HF) as (_ & _ & ->).
    rewrite count_event_app, escaping_not_invalid. lia. }
  task_step_cases H t Ht;
    first [ apply Hres; [done | unfold unresolved; by rewrite Hpc]
          | cbn [log move]; rewrite ?count_event_app, ?count_event_one;
            rewrite ?decide_False by done; unfold count_event; simpl; lia ].
Qed.

(** X9: a task is the only one to settle its future, and does so once: as
    long as a task has not left its [try] statement its future is pending,
    so [set_result] and [set_exception] never meet a future that is already
    resolved and no InvalidStateError is raised.  (The transitions are
    submissions and steps of tasks; a caller that cancels a future is not
    among them.) *)
Theorem future_settled_once l :
  reachable l →
  (∀ i t, tasks l !! i = Some t → unresolved t = true → futures l !! i = Some Pending) ∧
  count_event (EvUncaught InvalidStateError) (log l) = 0.
Proof.
  intros Hr. split; [by destruct (reachable_inv l Hr) as ([_ _ St] & _) |].
  destruct Hr as [d Hrtc]. revert l Hrtc.
  apply (rtc_ind_r (λ l, count_event (EvUncaught InvalidStateError) (log l) = 0)); [done |].
  intros l l' Hrtc Hstep IH.
  destruct (inv_rtc _ _ Hrtc (inv_initial d)) as (HF & _).
  by rewrite (no_invalid_state_step l l' Hstep HF).
Qed.

Lemma future_settled_once_witness :
  (∀ i t, tasks (state_after mistral_in_prompt) !! i = Some t → unresolved t = true →
          futures (state_after mistral_in_prompt) !! i = Some Pending) ∧
  count_event (EvUncaught InvalidStateError) (log (state_after mistral_in_prompt)) = 0.
Proof.
  apply (future_settled_once (state_after mistral_in_prompt)).
  apply (run_schedule_reachable mistral_in_prompt "cuda"). vm_compute. reflexivity.
Defined.

(** X11: the dispatcher cannot deadlock: in every reachable state in which
    some task has not finished, some task can take a step, whatever the
    external libraries answer. *)
Theorem no_deadlock l i t o :
  reachable l → tasks l !! i = Some t → t_pc t ≠ Finished →
  ∃ j l', task_step o l j = Some l'.
Proof.
  intros Hr Ht Hpc. destruct (reachable_inv l Hr) as (_ & [D V U K] & _).
  assert (∀ j t', tasks l !! j = Some t' → t_pc t' ≠ Finished → t_pc t' ≠ AtAcquire →
                  ∃ l', task_step o l j = Some l') as Hmove.
  { intros j t' Hj Hfin Hacq. rewrite (task_step_unfold o l j t' Hj).
    destruct (t_pc t') as [| | | instance | [|] |]; try done; try by eexists.
    - case_bool_decide; [destruct (Api.models (api l) !! t_model t') |]; by eexists.
    - destruct (Api.instantiate _ _ _ _); by eexists. }
  assert (t_pc t = AtAcquire ∨ t_pc t ≠ AtAcquire) as [Hacq | Hacq]
    by (destruct (t_pc t); (by left) || (by right)).
  - destruct (Api.locks (api l) !! t_model t) as [[|v]|] eqn:Hlock.
    + destruct (V _ _ Hlock) as [[[=] _] | [_ (j & t' & Hj & _ & Hh)]].
      destruct (Hmove j t' Hj) as [l' Hl']; [| |by exists j, l'];
        unfold holds in Hh; by destruct (t_pc t').
    + exists i. rewrite (task_step_unfold o l i t Ht), Hacq, Hlock. by eexists.
    + exists i. rewrite (task_step_unfold o l i t Ht), Hacq, Hlock. by eexists.
  - exists i. by apply (Hmove i t).
Qed.

Lemma no_deadlock_witness :
  t_pc {| t_model := "Mistral8x7BInstructV01"; t_prompt := prompt_with_rules;
          t_future := 1; t_pc := AtAcquire |} ≠ Finished ∧
  task_step ok_outcome (state_after mistral_in_prompt) 1 = None ∧
  ∃ j l', task_step ok_outcome (state_after mistral_in_prompt) j = Some l'.
Proof.
  split; [done |]. split; [vm_compute; reflexivity |].
  apply (no_deadlock (state_after mistral_in_prompt) 1
           {| t_model := "Mistral8x7BInstructV01"; t_prompt := prompt_with_rules;
              t_future := 1; t_pc := AtAcquire |}).
  - apply (run_schedule_reachable mistral_in_prompt "cuda"). vm_compute. reflexivity.
  - vm_compute. reflexivity.
  - done.
Defined.

Lemma with_pc_finished t : t_pc t = Finished → with_pc t Finished = t.
Proof. destruct t as [m p f c]. simpl. by intros ->. Qed.

(** One turn of the event loop on a task that has not started or has
    finished. *)
Lemma run_task_quiescent o l i t :
  reachable l → quiescent l → tasks l !! i = Some t →
  ∃ l', run_task o l i = Some l' ∧ reachable l' ∧ quiescent l' ∧
        tasks l' = <[i := with_pc t Finished]> (tasks l) ∧
        Api.locks (api l') = Api.locks (api l) ∧
        futures l' =
          if unresolved t
          then <[i := stored (task_result o (api l) (t_model t) (t_prompt t))]> (futures l)
          else futures l.
Proof.
  intros Hr Hq Ht. destruct (Hq i t Ht) as [Hpc | Hpc].
  - destruct (run_task_spec o l i t (reachable_inv l Hr) Ht Hpc
                (λ j, quiescent_free l j (t_model t) Hq))
      as (l' & Hrun & Hts & Hfs & _ & Hlocks & _).
    exists l'. split; [done |]. split.
    { eapply reachable_step; [done |]. by apply (run_task_from_rtc 5 o l i). }
    split; [|split; [done | split; [done |]]].
    + intros j t' Hj. rewrite Hts in Hj.
      apply list_lookup_insert_Some in Hj as [(_ & <- & _) | [_ Hj]]; [by right |].
      by apply (Hq j).
    + unfold unresolved. by rewrite Hpc.
  - exists l. unfold run_task. rewrite (run_task_from_finished 5 o l i t Ht Hpc).
    split; [done |]. split; [done |]. split; [done |]. split; [|split; [done |]].
    + rewrite (with_pc_finished t Hpc). symmetry. by apply list_insert_id.
    + unfold unresolved. by rewrite Hpc.
Qed.

Lemma split_prompt_raises prompt e :
  split_prompt prompt = Raise e → ∃ got, e = ValueError 2 got.
Proof.
  rewrite split_prompt_eq. cbv zeta.
  repeat (match goal with
          | |- context [negb (?a =? ?b)] => destruct (a =? b); cbn [negb]
          end); try done; intros [= <-]; by eexists.
Qed.

Lemma instance_prompt_storable generate instance prompt e :
  (∀ input e', generate input = Raise e' → storable e' = true) →
  instance_prompt generate instance prompt true = Raise e → storable e = true.
Proof.
  intros Hg. unfold instance_prompt.
  destruct (cls instance);
    unfold Mistral8x7BInstructV01.prompt, LLama2_xB_Chat.prompt,
           CodeLLama_xB_Instruct.prompt, Gemma_7B_Instruct.prompt; cbn [negb];
    (destruct (split_prompt prompt) as [sp|e0] eqn:Hsp; cbn [mbind result_bind];
     [| intros [= <-]; by destruct (split_prompt_raises _ _ Hsp) as [got ->]]).
  - by apply Hg.
  - destruct (generate (LLama2_xB_Chat.compose sp)) as [text|e0] eqn:Hgen;
      cbn [mbind result_bind]; [done |]. intros [= <-]. by eapply Hg.
  - by apply Hg.
  - by apply Hg.
Qed.

Lemma instantiate_storable load self model e :
  (∀ e', load = Raise e' → storable e' = true) →
  Api.instantiate load self model ∅ = Raise e → storable e = true.
Proof.
  intros Hl. unfold Api.instantiate, Api.globals.
  destruct (String.eqb model (class_name Mistral)).
  { cbn. destruct load as [[]|e0]; [done |]. intros [= <-]. by apply Hl. }
  destruct (String.eqb model (class_name LLama2)); [by intros [= <-] |].
  destruct (String.eqb model (class_name CodeLLama)); by intros [= <-].
Qed.

Lemma task_result_storable o self model prompt e :
  well_behaved o →
  task_result o self model prompt = Raise e → storable e = true.
Proof.
  intros [Hl Hg]. unfold task_result, Api._get_model.
  destruct (Api.locks self !! model); [|by intros [= <-]].
  case_bool_decide; [|by intros [= <-]].
  destruct (Api.models self !! model) as [instance|].
  - by apply instance_prompt_storable.
  - destruct (Api.instantiate (load o) self model ∅) as [instance|e0] eqn:Hinst.
    + by apply instance_prompt_storable.
    + intros [= <-]. by eapply instantiate_storable.
Qed.

Lemma well_behaved_result o self model prompt :
  well_behaved o →
  stops_loop (task_result o self model prompt) = false ∧
  ∃ r, stored (task_result o self model prompt) = Done r.
Proof.
  intros Hw. destruct (task_result o self model prompt) as [v|e] eqn:Hr.
  - split; [done | by eexists].
  - pose proof (task_result_storable _ _ _ _ _ Hw Hr) as Hs.
    split; [by destruct e |]. cbn [stored]. rewrite Hs. by eexists.
Qed.

Lemma run_tasks_quiescent os order l :
  reachable l → quiescent l → (∀ i, well_behaved (os i)) →
  (∀ i, i ∈ order → i < length (tasks l)) →
  ∃ l', run_tasks os order l = Some l' ∧ reachable l' ∧ quiescent l' ∧
        length (tasks l') = length (tasks l) ∧
        Api.locks (api l') = Api.locks (api l) ∧
        (∀ j t, tasks l' !! j = Some t →
                t_pc t = Finished ∨ ((j ∉ order) ∧ tasks l !! j = Some t)) ∧
        (∀ j, (∃ r, futures l !! j = Some (Done r)) ∨
              (j ∈ order ∧ ∃ t, tasks l !! j = Some t ∧ unresolved t = true) →
              ∃ r, futures l' !! j = Some (Done r)).
Proof.
  intros Hr Hq Hw. revert l Hr Hq. induction order as [|i order IH]; intros l Hr Hq Hin.
  - exists l. repeat split; try done.
    + intros j t Hj. right. split; [apply not_elem_of_nil | done].
    + intros j [H | [H _]]; [done | by apply elem_of_nil in H].
  - destruct (lookup_lt_is_Some_2 (tasks l) i (Hin i (list_elem_of_here _ _))) as [t Ht].
    destruct (run_task_quiescent (os i) l i t Hr Hq Ht)
      as (l1 & Hrun & Hr1 & Hq1 & Hts & Hlocks & Hfs).
    assert (length (tasks l1) = length (tasks l)) as Hlen
      by (by rewrite Hts, length_insert).
    destruct (IH l1 Hr1 Hq1) as (l' & Hrun' & Hr' & Hq' & Hlen' & Hlocks' & Hfin & Hdone).
    { intros j Hj. rewrite Hlen. apply Hin. by right. }
    destruct (well_behaved_result (os i) (api l) (t_model t) (t_prompt t) (Hw i))
      as [Hstop [r0 Hr0]].
    destruct (reachable_inv l Hr) as ([L _ St] & _).
    exists l'. cbn [run_tasks]. rewrite Ht. cbn [mbind option_bind]. rewrite Hrun.
    cbn [mbind option_bind]. rewrite Hstop, andb_false_r.
    split; [done |]. split; [done |]. split; [done |].
    split; [congruence |]. split; [congruence |]. split.
    + intros j t' Hj. destruct (Hfin j t' Hj) as [Hpc | [Hjo Hj1]]; [by left |].
      rewrite Hts in Hj1.
      apply list_lookup_insert_Some in Hj1 as [(<- & <- & _) | [Hne Hj1]]; [by left |].
      right. split; [|done]. apply not_elem_of_cons. done.
    + intros j Hj. apply Hdone.
      assert (i < length (futures l)) as Hlt by (rewrite L; by eapply lookup_lt_Some).
      destruct Hj as [[r Hjr] | [Hjin (tj & Hj & Hu)]].
      * left. exists r. rewrite Hfs. destruct (unresolved t) eqn:Hut; [|done].
        rewrite list_lookup_insert_ne; [done |]. intros <-.
        rewrite (St i t Ht Hut) in Hjr. done.
      * apply elem_of_cons in Hjin as [-> | Hjin].
        -- left. exists r0. simplify_eq. rewrite Hfs, Hu, Hr0.
           by apply list_lookup_insert_eq.
        -- destruct (decide (j = i)) as [-> | Hne].
           ++ left. exists r0. simplify_eq. rewrite Hfs, Hu, Hr0.
              by apply list_lookup_insert_eq.
           ++ right. split; [done |]. exists tj. split; [|done].
              by rewrite Hts, list_lookup_insert_ne.
Qed.

(** X12: started between two task runs, with external libraries that raise
    nothing but exceptions a future can hold, the event loop runs every
    queued task to its end without ever waiting for a semaphore: afterwards
    every task has finished, the future of every task that was waiting to
    run holds an outcome, and the semaphores are as they were. *)
Theorem event_loop_drains os l :
  reachable l → quiescent l → (∀ i, well_behaved (os i)) →
  ∃ l', run_loop os l = Some l' ∧ reachable l' ∧
        (∀ i t, tasks l' !! i = Some t → t_pc t = Finished) ∧
        length (futures l') = length (futures l) ∧
        (∀ i t, tasks l !! i = Some t → unresolved t = true →
                ∃ r, futures l' !! i = Some (Done r)) ∧
        Api.locks (api l') = Api.locks (api l).
Proof.
  intros Hr Hq Hw. unfold run_loop.
  destruct (run_tasks_quiescent os (seq 0 (length (tasks l))) l Hr Hq Hw)
    as (l' & Hrun & Hr' & _ & Hlen & Hlocks & Hfin & Hdone).
  { intros i Hi. apply elem_of_seq in Hi. lia. }
  destruct (reachable_inv l Hr) as ([L _ _] & _ & _).
  destruct (reachable_inv l' Hr') as ([L' _ _] & _ & _).
  exists l'. split; [done |]. split; [done |]. split.
  { intros i t Ht. destruct (Hfin i t Ht) as [Hpc | [Hni _]]; [done |].
    destruct Hni. apply elem_of_seq. apply lookup_lt_Some in Ht. lia. }
  split; [congruence |]. split; [|done].
  intros i t Ht Hu. apply Hdone. right. split; [|by exists t].
  apply elem_of_seq. apply lookup_lt_Some in Ht. lia.
Qed.

Lemma three_submissions_quiescent : quiescent (state_after three_submissions).
Proof.
  intros i t. 
  replace (tasks (state_after three_submissions)) with
    [ {| t_model := "Mistral8x7BInstructV01"; t_prompt := prompt_with_rules;
         t_future := 0; t_pc := AtAcquire |};
      {| t_model := "NotAModel"; t_prompt := prompt_with_rules;
         t_future := 1; t_pc := AtAcquire |};
      {| t_model := "LLama2_xB_Chat"; t_prompt := prompt_with_rules;
         t_future := 2; t_pc := AtAcquire |} ] by (vm_compute; reflexivity).
  destruct i as [|[|[|i]]]; simpl; intros [= <-]; by left.
Qed.

Lemma ok_outcome_well_behaved : well_behaved ok_outcome.
Proof. split; [intros e [=] | intros input e [=]]. Qed.

Lemma event_loop_drains_witness :
  ∃ l', run_loop (λ _, ok_outcome) (state_after three_submissions) = Some l' ∧
        reachable l' ∧
        (∀ i t, tasks l' !! i = Some t → t_pc t = Finished) ∧
        length (futures l') = length (futures (state_after three_submissions)) ∧
        (∀ i t, tasks (state_after three_submissions) !! i = Some t → unresolved t = true →
                ∃ r, futures l' !! i = Some (Done r)) ∧
        Api.locks (api l') = Api.locks (api (state_after three_submissions)).
Proof.
  apply (event_loop_drains (λ _, ok_outcome) (state_after three_submissions)).
  - apply (run_schedule_reachable three_submissions "cuda"). vm_compute. reflexivity.
  - exact three_submissions_quiescent.
  - intros i. exact ok_outcome_well_behaved.
Defined.

(** X13: what one [_get_model] call leaves behind.  It never touches the
    device or the lock table, nor the cache entry of another name.  When it
    returns an instance, the name is available, the cache holds that
    instance, and every further call for the name returns it without any
    constructor call, whatever keyword arguments that call is given.  When
    it raises, the object is unchanged; for a name that is not available
    the error is the "not known" Exception and no constructor was called. *)
Theorem get_model_post load self model kwargs :
  let '(self', evs, r) := Api._get_model load self model kwargs in
  Api.dev self' = Api.dev self ∧ Api.locks self' = Api.locks self ∧
  (∀ k, k ≠ model → Api.models self' !! k = Api.models self !! k) ∧
  match r with
  | Ok instance =>
      model ∈ Api.available_models ∧
      Api.models self' !! model = Some instance ∧
      ∀ load' kwargs', Api._get_model load' self' model kwargs' = (self', [], Ok instance)
  | Raise e =>
      self' = self ∧ (model ∉ Api.available_models → e = Api.not_known model ∧ evs = [])
  end.
Proof.
  unfold Api._get_model at 1. case_bool_decide as Hav.
  - destruct (Api.models self !! model) as [instance|] eqn:Hm.
    + repeat split; try done. intros load' kwargs'. by apply get_model_cached.
    + destruct (Api.instantiate load self model kwargs) as [instance|e].
      * cbn [Api.dev Api.locks Api.models]. repeat split; try done.
        -- intros k Hk. by rewrite lookup_insert_ne.
        -- by rewrite lookup_insert_eq.
        -- intros load' kwargs'. apply get_model_cached; [|done].
           cbn [Api.models]. by rewrite lookup_insert_eq.
      * repeat split; done.
  - repeat split; done.
Qed.

Lemma instantiate_Ok_shape load self model instance :
  Api.instantiate load self model ∅ = Ok instance →
  instance = {| cls := Mistral; b_dev := Api.dev self; size := None |}.
Proof.
  unfold Api.instantiate, Api.globals.
  destruct (String.eqb_spec model (class_name Mistral)) as [-> | _].
  - cbn. destruct load as [[]|e]; [|done]. by intros [= <-].
  - destruct (String.eqb_spec model (class_name LLama2)) as [-> | _]; [done |].
    destruct (String.eqb_spec model (class_name CodeLLama)) as [-> | _]; done.
Qed.

(** X14: one Api object constructs its backends on the device it was given:
    in every state reachable from [Api(use_device)], the object's device is
    [use_device], and whatever the cache holds is Mistral's backend,
    constructed with [dev = use_device] and without a size. *)
Theorem cached_backend_shape use_device l :
  rtc step (initial use_device) l →
  Api.dev (api l) = use_device ∧
  ∀ m instance, Api.models (api l) !! m = Some instance →
    m = "Mistral8x7BInstructV01" ∧
    instance = {| cls := Mistral; b_dev := use_device; size := None |}.
Proof.
  revert l. apply (rtc_ind_r (λ l, Api.dev (api l) = use_device ∧
    ∀ m instance, Api.models (api l) !! m = Some instance →
      m = "Mistral8x7BInstructV01" ∧
      instance = {| cls := Mistral; b_dev := use_device; size := None |})).
  - split; [done |]. intros m instance. cbn. by rewrite lookup_empty.
  - intros l l' _ Hstep [Hdev Hshape].
    destruct Hstep as [l model prompt l' f [= <- <-] | l i o l' H]; [done |].
    task_step_cases H t Ht; cbn [api move resolve Api.dev Api.models]; try done.
    split; [done |]. intros m instance'.
    destruct (decide (m = t_model t)) as [-> | Hne].
    + rewrite lookup_insert_eq. intros [= <-].
      pose proof (instantiate_Ok_shape _ _ _ _ Hinst) as ->.
      apply instantiate_Ok in Hinst as (-> & _). by rewrite Hdev.
    + rewrite lookup_insert_ne by done. apply Hshape.
Qed.

Lemma cached_backend_shape_witness :
  Api.dev (api (state_after mistral_done)) = "cuda" ∧
  ∀ m instance, Api.models (api (state_after mistral_done)) !! m = Some instance →
    m = "Mistral8x7BInstructV01" ∧
    instance = {| cls := Mistral; b_dev := "cuda"; size := None |}.
Proof.
  apply (cached_backend_shape "cuda" (state_after mistral_done)).
  apply (run_schedule_rtc mistral_done). vm_compute. reflexivity.
Defined.

(** X15: a task that is inside a backend's [prompt] is inside the [prompt]
    of the instance cached for its model name: every call for a name goes
    to the one cached backend. *)
Theorem prompt_runs_on_cached_instance l i t instance :
  reachable l → tasks l !! i = Some t → t_pc t = InPrompt instance →
  Api.models (api l) !! t_model t = Some instance.
Proof.
  intros [d Hrtc]. revert i t instance. revert l Hrtc.
  apply (rtc_ind_r (λ l, ∀ i t instance, tasks l !! i = Some t →
           t_pc t = InPrompt instance → Api.models (api l) !! t_model t = Some instance)).
  - intros i t instance [=].
  - intros l l' Hrtc Hstep IH j t' cached Hj Hpc'.
    destruct (inv_rtc _ _ Hrtc (inv_initial d)) as (_ & _ & [C _ _]).
    destruct Hstep as [l model prompt l' f [= <- <-] | l i o l' H].
    { simpl in *. apply lookup_app_Some in Hj as [Hj | [_ Hj]]; [by apply (IH j) |].
      apply list_lookup_singleton_Some in Hj as [_ <-]. done. }
    task_step_cases H t Ht; cbn [api tasks move resolve Api.models] in *;
      apply list_lookup_insert_Some in Hj as [(<- & <- & _) | [Hne Hj]];
      try done; try (by apply (IH j)); cbn [t_pc with_pc t_model] in *.
    + by injection Hpc' as <-.
    + injection Hpc' as <-. by rewrite lookup_insert_eq.
    + pose proof (IH j t' cached Hj Hpc') as Hold.
      pose proof (C i t Ht Hpc) as Hnone.
      rewrite lookup_insert_ne; [done |]. intros Heq. congruence.
Qed.

Lemma prompt_runs_on_cached_instance_witness :
  Api.models (api (state_after mistral_in_prompt)) !!
    t_model {| t_model := "Mistral8x7BInstructV01"; t_prompt := prompt_with_rules;
               t_future := 0;
               t_pc := InPrompt {| cls := Mistral; b_dev := "cuda"; size := None |} |} =
  Some {| cls := Mistral; b_dev := "cuda"; size := None |}.
Proof.
  apply (prompt_runs_on_cached_instance (state_after mistral_in_prompt) 0).
  - apply (run_schedule_reachable mistral_in_prompt "cuda"). vm_compute. reflexivity.
  - vm_compute. reflexivity.
  - reflexivity.
Defined.

(** X16: a submission for Mistral whose backend is cached, or can be loaded,
    settles its future with exactly what [Mistral8x7BInstructV01.prompt]
    returns or raises for the prompt with [include_rules = True]: the
    future holds the returned text, or the raised exception when a future
    can hold it, and stays pending for [StopIteration] and for an exception
    outside [Exception]. The backend is in the cache afterwards, also when
    the prompt is rejected: the backend is constructed before the prompt is
    looked at. *)
Theorem mistral_submission l prompt o :
  reachable l → quiescent l →
  is_Some (Api.models (api l) !! "Mistral8x7BInstructV01") ∨ load o = Ok () →
  ∃ l1 f l2 instance,
    prompt_model l "Mistral8x7BInstructV01" prompt = Ok (l1, f) ∧
    run_task o l1 f = Some l2 ∧
    futures l2 !! f =
      Some (stored (Mistral8x7BInstructV01.prompt (generate o) prompt true)) ∧
    Api.models (api l2) !! "Mistral8x7BInstructV01" = Some instance ∧
    cls instance = Mistral.
Proof.
  intros Hr Hq Hload. destruct (reachable_inv l Hr) as (_ & HL & [_ _ K]).
  set (M := "Mistral8x7BInstructV01") in *.
  assert (M ∈ Api.available_models) as Hav by (by left).
  destruct (submit_run l M prompt o Hr (λ j, quiescent_free l j M Hq))
    as (l1 & l2 & Hsub & _ & _ & _ & Hrun & Hfut & _ & _ & Hrest & _).
  destruct (proj2 (li_dom l HL M) Hav) as [v Hlock].
  unfold task_result in Hfut. rewrite Hlock in Hfut, Hrest.
  unfold Api._get_model in Hfut, Hrest. rewrite (bool_decide_eq_true_2 _ Hav) in Hfut, Hrest.
  exists l1, (length (futures l)), l2.
  destruct (Api.models (api l) !! M) as [instance|] eqn:Hm.
  - destruct (K M instance Hm) as [_ Hcls]. exists instance.
    destruct Hrest as [Hmodels _]. cbn [fst] in Hmodels.
    unfold instance_prompt in Hfut. rewrite Hcls in Hfut.
    repeat split; try done. by rewrite Hmodels.
  - destruct Hload as [[? [=]] | Hload]. rewrite Hload in Hfut, Hrest.
    change (Api.instantiate (Ok ()) (api l) M ∅)
      with (Ok {| cls := Mistral; b_dev := Api.dev (api l); size := None |} : result Backend)
      in Hfut, Hrest.
    exists {| cls := Mistral; b_dev := Api.dev (api l); size := None |}.
    destruct Hrest as [Hmodels _]. cbn [fst Api.models] in Hmodels.
    repeat split; try done. by rewrite Hmodels, lookup_insert_eq.
Qed.

Lemma mistral_submission_witness :
  load ok_outcome = Ok () ∧
  split_prompt "no sections" = Raise (ValueError 2 1) ∧
  ∃ l1 f l2 instance,
    prompt_model (initial "cuda") "Mistral8x7BInstructV01" "no sections" = Ok (l1, f) ∧
    run_task ok_outcome l1 f = Some l2 ∧
    futures l2 !! f =
      Some (stored (Mistral8x7BInstructV01.prompt (generate ok_outcome) "no sections" true)) ∧
    Api.models (api l2) !! "Mistral8x7BInstructV01" = Some instance ∧
    cls instance = Mistral.
Proof.
  split; [reflexivity |]. split; [vm_compute; reflexivity |].
  apply (mistral_submission (initial "cuda")).
  - exists "cuda". apply rtc_refl.
  - intros i t [=].
  - right. reflexivity.
Defined.
